(** * Table mappings of the mapper: casing of identifiers and shape of documents

    A shallow embedding of [lib/mapping/table-mappings.js] (the classes
    [TableMappings], [UnderscoreCqlToCamelCaseMappings],
    [UnderscoreCqlToPascalCaseMappings] and [DefaultTableMappings]) and of the
    type-level [snakeCase] of [lib/mapping/index.d.ts].  The source file holds
    the classes twice; the embedding follows the first copy, the one with the
    [convertLongToString] flag and the guards on [null].

    Strings.  A JavaScript string is modelled as a [string]: the sequence of
    its code units, for code units of the ASCII range, which is the range of
    CQL identifiers.  On that range [toLowerCase] and [toUpperCase] act on the
    letters A-Z and a-z only, and so do the functions below; the host's case
    mapping of code units above 127 is not modelled. *)

From Stdlib Require Import String Ascii List ZArith Bool Arith Lia.
From Stdlib Require Import Numbers.DecimalString.
Import ListNotations.

Open Scope list_scope.
Open Scope string_scope.

(** ** Host string primitives *)

Module JsString.

(** The character class [[A-Z]] of the regular expressions. *)
Definition isUpperAZ (c : ascii) : bool :=
  let n := nat_of_ascii c in Nat.leb 65 n && Nat.leb n 90.

(** The letters [a-z] ([lowerCaseLetters] of index.d.ts). *)
Definition isLowerAZ (c : ascii) : bool :=
  let n := nat_of_ascii c in Nat.leb 97 n && Nat.leb n 122.

Definition isLetter (c : ascii) : bool := isUpperAZ c || isLowerAZ c.

Definition charToLower (c : ascii) : ascii :=
  if isUpperAZ c then ascii_of_nat (nat_of_ascii c + 32) else c.

Definition charToUpper (c : ascii) : ascii :=
  if isLowerAZ c then ascii_of_nat (nat_of_ascii c - 32) else c.

(** [s.toLowerCase()] *)
Fixpoint toLowerCase (s : string) : string :=
  match s with
  | EmptyString => EmptyString
  | String c s' => String (charToLower c) (toLowerCase s')
  end.

(** [s.toUpperCase()] *)
Fixpoint toUpperCase (s : string) : string :=
  match s with
  | EmptyString => EmptyString
  | String c s' => String (charToUpper c) (toUpperCase s')
  end.

(** [s.charAt(0)]: the first code unit as a string, or the empty string. *)
Definition charAt0 (s : string) : string :=
  match s with
  | EmptyString => EmptyString
  | String c _ => String c EmptyString
  end.

(** [s.slice(1)] *)
Definition slice1 (s : string) : string :=
  match s with
  | EmptyString => EmptyString
  | String _ s' => s'
  end.

(** Puts [c] in front of the first segment of [segs]. *)
Definition consHead (c : ascii) (segs : list string) : list string :=
  match segs with
  | [] => [String c EmptyString]
  | h :: t => String c h :: t
  end.

(** The matcher of [/(?=[p])/] at index [q]: it succeeds, with an empty
    match, when the code unit at [q] is in the class [p]. *)
Definition lookaheadMatches (p : ascii -> bool) (S : string) (q : nat) : bool :=
  match String.get q S with
  | Some c => p c
  | None => false
  end.

(** The loop of [RegExp.prototype[Symbol.split]]: [pIndex] is the start of the
    current segment, [q] the index tried and [A] the segments so far.  An
    empty match at [q] ends at [e = q]; when [e] is [pIndex] the loop moves on
    by one, otherwise it takes the segment from [pIndex] to [q] and goes on
    from [e]. *)
Fixpoint splitLoop (steps : nat) (p : ascii -> bool) (S : string) (size pIndex q : nat)
    (A : list string) : list string :=
  match steps with
  | 0 => A
  | S steps' =>
      if Nat.ltb q size then
        if lookaheadMatches p S q then
          if Nat.eqb q pIndex then splitLoop steps' p S size pIndex (q + 1) A
          else splitLoop steps' p S size q q (A ++ [substring pIndex (q - pIndex) S])%list
        else splitLoop steps' p S size pIndex (q + 1) A
      else (A ++ [substring pIndex (size - pIndex) S])%list
  end.

(** [S.split(/(?=[p])/)].  The empty string is tried once, at index 0; on any
    other string the loop runs, and two steps for each index are enough. *)
Definition splitOnLookahead (p : ascii -> bool) (S : string) : list string :=
  let size := String.length S in
  if Nat.eqb size 0 then
    if lookaheadMatches p S 0 then [] else [S]
  else splitLoop (2 * size + 1) p S size 0 0 [].

(** The same split by recursion on the string: index 0 never splits, a
    segment ends before every later code unit of the class [p], and the
    empty string gives one empty segment. *)
Fixpoint splitBefore (p : ascii -> bool) (s : string) : list string :=
  match s with
  | EmptyString => [EmptyString]
  | String c s' =>
      match s' with
      | EmptyString => [String c EmptyString]
      | String d _ =>
          if p d then String c EmptyString :: splitBefore p s'
          else consHead c (splitBefore p s')
      end
  end.

(** The segments of the rest of a string, from inside a segment. *)
Fixpoint segmentsFromInside (p : ascii -> bool) (s : string) : list string :=
  match s with
  | EmptyString => [EmptyString]
  | String c s' =>
      if p c then EmptyString :: consHead c (segmentsFromInside p s')
      else consHead c (segmentsFromInside p s')
  end.

(** Puts [w] in front of the first segment of [segs]. *)
Definition prefixHead (w : string) (segs : list string) : list string :=
  match segs with
  | [] => [w]
  | h :: t => (w ++ h) :: t
  end.

(** [s.split(sep)] for a separator of one code unit. *)
Fixpoint split (sep : ascii) (s : string) : list string :=
  match s with
  | EmptyString => [EmptyString]
  | String c s' =>
      if Ascii.eqb c sep then EmptyString :: split sep s'
      else consHead c (split sep s')
  end.

(** [segs.join(sep)] *)
Definition join (sep : string) (segs : list string) : string :=
  String.concat sep segs.

(** [arr.map((word, index) => f(word, index))] *)
Fixpoint mapIndexFrom {A B : Type} (f : A -> nat -> B) (i : nat) (l : list A) : list B :=
  match l with
  | [] => []
  | x :: l' => f x i :: mapIndexFrom f (S i) l'
  end.

Definition mapIndex {A B : Type} (f : A -> nat -> B) (l : list A) : list B :=
  mapIndexFrom f 0 l.

(** [arr.includes(s)] on an array of strings. *)
Definition includes (arr : list string) (s : string) : bool :=
  existsb (String.eqb s) arr.

Definition allChars (p : ascii -> bool) (s : string) : bool :=
  forallb p (list_ascii_of_string s).

Definition anyChar (p : ascii -> bool) (s : string) : bool :=
  existsb p (list_ascii_of_string s).

End JsString.

Import JsString.

(** ** The base class [TableMappings] *)

(** The literal of the constructor, before [.map((word) => word.toLowerCase())]. *)
Definition ReservedWordsLiteral : list string :=
  [ "ADD"; "ALLOW"; "ALTER"; "AND"; "APPLY"; "ASC"; "AUTHORIZE"; "BATCH";
    "BEGIN"; "BY"; "COLUMNFAMILY"; "CREATE"; "DELETE"; "DESC"; "DESCRIBE";
    "DROP"; "ENTRIES"; "EXECUTE"; "FROM"; "FULL"; "GRANT"; "IF"; "IN";
    "INDEX"; "INFINITY"; "INSERT"; "INTO"; "KEYSPACE"; "LIMIT"; "MODIFY";
    "NAN"; "NORECURSIVE"; "NOT"; "NULL"; "OF"; "ON"; "OR"; "ORDER"; "PRIMARY";
    "RENAME"; "REPLACE"; "REVOKE"; "SCHEMA"; "SELECT"; "SET"; "TABLE"; "TO";
    "TOKEN"; "TRUNCATE"; "UNLOGGED"; "UPDATE"; "USE"; "USING"; "VIEW";
    "WHERE"; "WITH" ].

(** [this.ReservedWords] *)
Definition ReservedWords : list string := map toLowerCase ReservedWordsLiteral.

(** ** Identifier conversions *)

(** [PropName.split(/(?=[A-Z])/).join('_').toLowerCase()], the constant
    [Propertyname] of both underscore classes. *)
Definition Propertyname (PropName : string) : string :=
  toLowerCase (join "_" (splitOnLookahead isUpperAZ PropName)).

(** [getColumnName] of [UnderscoreCqlToCamelCaseMappings] and of
    [UnderscoreCqlToPascalCaseMappings] (the two bodies are the same). *)
Definition underscoreGetColumnName (PropName : string) : string :=
  if includes ReservedWords (Propertyname PropName)
  then Propertyname PropName ++ "_"
  else Propertyname PropName.

(** [word.charAt(0).toUpperCase() + word.slice(1)] *)
Definition capitalize (word : string) : string :=
  toUpperCase (charAt0 word) ++ slice1 word.

(** [getPropertyName] of [UnderscoreCqlToCamelCaseMappings]. *)
Definition camelGetPropertyName (columnName : string) : string :=
  join "" (mapIndex (fun word index => if Nat.eqb index 0 then word else capitalize word)
                    (split "_" columnName)).

(** [getPropertyName] of [UnderscoreCqlToPascalCaseMappings]. *)
Definition pascalGetPropertyName (ColumnName : string) : string :=
  join "" (map capitalize (split "_" ColumnName)).

(** ** The type-level [snakeCase] of index.d.ts

    [getKeys<T> = snakeCase<keyof T>[]] is the declared type of the [fields]
    of the document infos: the column names of the properties of [T]. *)

(** [snakeCaseConditions<P, S1, S2>]; [P] is the previous character, absent
    at the start. *)
Definition snakeCaseConditions (P : option ascii) (S1 S2 : ascii) : bool :=
  if isUpperAZ S1 then
    match P with
    | None => false
    | Some p => if isLowerAZ p then true else if isLowerAZ S2 then true else false
    end
  else false.

(** [snakeCase<S, P>].  The pattern [`${infer S1}${infer S2}${infer S3}`]
    needs two characters; a shorter [S] takes the branch [Lowercase<S>]. *)
Fixpoint snakeCase (S : string) (P : option ascii) : string :=
  match S with
  | String S1 rest =>
      match rest with
      | String S2 _ =>
          if snakeCaseConditions P S1 S2
          then String "_" (String (charToLower S1) (snakeCase rest (Some S1)))
          else String (charToLower S1) (snakeCase rest (Some S1))
      | EmptyString => toLowerCase S
      end
  | EmptyString => toLowerCase S
  end.

(** The conversion as the specification words it: a separator goes before an
    uppercase letter that is preceded by a lowercase letter, or that is
    followed by a lowercase letter and is not the first character; the whole
    is lowercased. *)
Fixpoint lookaheadSnake (prev : option ascii) (s : string) : string :=
  match s with
  | EmptyString => EmptyString
  | String c s' =>
      let followedByLower :=
        match s' with
        | String d _ => isLowerAZ d
        | EmptyString => false
        end in
      let separated :=
        match prev with
        | None => false
        | Some p => isUpperAZ c && (isLowerAZ p || followedByLower)
        end in
      if separated
      then String "_" (String (charToLower c) (lookaheadSnake (Some c) s'))
      else String (charToLower c) (lookaheadSnake (Some c) s')
  end.

(** What the split on [/(?=[A-Z])/] amounts to, character by character: an
    underscore before every letter A-Z that is not the first character. *)
Fixpoint everyCapitalSnake (first : bool) (s : string) : string :=
  match s with
  | EmptyString => EmptyString
  | String c s' =>
      if negb first && isUpperAZ c
      then String "_" (String (charToLower c) (everyCapitalSnake false s'))
      else String (charToLower c) (everyCapitalSnake false s')
  end.

(** ** Values of the host language *)

(** The values a document is made of.  A [Date] and a [Long] are objects of
    the host: [typeof] gives ["object"] for them.  [Long] is [types.Long], the
    class of 64-bit integers that the driver takes from the [long] package
    (not among the sources at hand): an instance has the own fields [low],
    [high] (its two 32-bit words) and [unsigned], and [toString()] gives its
    decimal numeral.  Numbers are never inspected by the mappings; integers
    stand for them. *)
#[warnings="-register-all"] Inductive value : Type :=
| VUndefined
| VNull
| VBoolean (b : bool)
| VNumber (n : Z)
| VString (s : string)
| VDate (time : Z)
| VLong (low high : Z) (unsigned : bool)
| VArray (elements : list value)
| VObject (properties : list (string * value)).

Inductive typeTag : Type :=
| TUndefined | TBoolean | TNumber | TString | TObject.

(** [typeof v] *)
Definition typeof (v : value) : typeTag :=
  match v with
  | VUndefined => TUndefined
  | VBoolean _ => TBoolean
  | VNumber _ => TNumber
  | VString _ => TString
  | VNull | VDate _ | VLong _ _ _ | VArray _ | VObject _ => TObject
  end.

Definition isObjectTag (t : typeTag) : bool :=
  match t with TObject => true | _ => false end.

(** [v === null] *)
Definition isNull (v : value) : bool :=
  match v with VNull => true | _ => false end.

(** [v instanceof Date] *)
Definition instanceofDate (v : value) : bool :=
  match v with VDate _ => true | _ => false end.

(** [v instanceof Long] *)
Definition instanceofLong (v : value) : bool :=
  match v with VLong _ _ _ => true | _ => false end.

(** [Array.isArray(v)] *)
Definition isArray (v : value) : bool :=
  match v with VArray _ => true | _ => false end.

(** The decimal numeral of an integer. *)
Definition decimal (z : Z) : string := NilZero.string_of_int (Z.to_int z).

(** The integer a [Long] stands for: [high] and [low] are its two 32-bit
    words. *)
Definition LongValue (low high : Z) (unsigned : bool) : Z :=
  let lowBits := (low mod 4294967296)%Z in
  let highWord := if unsigned then (high mod 4294967296)%Z
                  else ((high + 2147483648) mod 4294967296 - 2147483648)%Z in
  (highWord * 4294967296 + lowBits)%Z.

(** [value.toString()] of a [Long]; other values do not reach the call. *)
Definition LongToString (v : value) : value :=
  match v with
  | VLong low high unsigned => VString (decimal (LongValue low high unsigned))
  | _ => v
  end.

(** ** Objects: own properties in the order of [Object.entries] *)

(** The own properties of an object, over the type [V] of what they hold. *)
Definition properties (V : Type) : Type := list (string * V).

Definition isDigit (c : ascii) : bool :=
  let n := nat_of_ascii c in Nat.leb 48 n && Nat.leb n 57.

Fixpoint digitsValue (acc : N) (s : string) : N :=
  match s with
  | EmptyString => acc
  | String c s' => digitsValue (10 * acc + N.of_nat (nat_of_ascii c - 48))%N s'
  end.

(** The array index a property key denotes, if any: a canonical decimal
    numeral below 2^32 - 1.  Such keys come first, in ascending order, in the
    order of the own properties. *)
Definition arrayIndex (key : string) : option N :=
  match key with
  | EmptyString => None
  | String c rest =>
      if allChars isDigit key
         && (negb (Ascii.eqb c "0") || String.eqb rest EmptyString)
         && Nat.leb (String.length key) 10
         && N.ltb (digitsValue 0%N key) 4294967295%N
      then Some (digitsValue 0%N key)
      else None
  end.

Section Properties.

Context {V : Type}.

Definition hasOwnProperty (key : string) (o : properties V) : bool :=
  existsb (fun kv => String.eqb (fst kv) key) o.

Fixpoint replaceProperty (key : string) (v : V) (o : properties V) : properties V :=
  match o with
  | [] => []
  | (k, v') :: o' =>
      if String.eqb k key then (k, v) :: o' else (k, v') :: replaceProperty key v o'
  end.

Fixpoint insertIndexProperty (n : N) (key : string) (v : V) (o : properties V)
  : properties V :=
  match o with
  | [] => [(key, v)]
  | (k, v') :: o' =>
      match arrayIndex k with
      | Some m => if N.ltb m n then (k, v') :: insertIndexProperty n key v o'
                  else (key, v) :: o
      | None => (key, v) :: o
      end
  end.

(** [newObject[key] = v] on an object made by [{}].  A present key keeps its
    place and takes the new value; a new array index goes among the array
    indices; any other new key goes last.  The key [__proto__] reaches the
    accessor inherited from [Object.prototype] and makes no own property
    (the prototype, which that accessor may replace, is not part of the
    model). *)
Definition setProperty (key : string) (v : V) (o : properties V) : properties V :=
  if String.eqb key "__proto__" then o
  else if hasOwnProperty key o then replaceProperty key v o
  else match arrayIndex key with
       | Some n => insertIndexProperty n key v o
       | None => (o ++ [(key, v)])%list
       end.

(** The entries of an array: its elements under their indices. *)
Fixpoint indexEntries (i : nat) (elements : list V) : properties V :=
  match elements with
  | [] => []
  | v :: rest => (decimal (Z.of_nat i), v) :: indexEntries (S i) rest
  end.

End Properties.

(** The own enumerable properties of a [Long]. *)
Definition LongEntries (low high : Z) (unsigned : bool) : properties value :=
  [("low", VNumber low); ("high", VNumber high); ("unsigned", VBoolean unsigned)].

(** [Object.entries(obj)] for an [obj] with [typeof obj === 'object'] that is
    not [null]; a [Date] has no own enumerable property. *)
Definition ObjectEntries (obj : value) : properties value :=
  match obj with
  | VObject o => o
  | VArray elements => indexEntries 0 elements
  | VLong low high unsigned => LongEntries low high unsigned
  | _ => []
  end.

(** ** The walkers

    [objectToFixedCasing] and [objectToTableCasing] have one body in every
    class, up to the name conversion applied to the keys ([rename]) and to
    whether a [Long] is replaced by [value.toString()] ([longToString], the
    conjunction [value instanceof Long && this.convertLongToString] where the
    body has it, [false] where the body stores [value] as it is). *)
Section Walker.

Variable rename : string -> string.
Variable longToString : bool.

(** The body of the loop over [Object.entries(obj)], given the function of
    the recursive call. *)
Definition assignEntry (recur : value -> value) (newObject : properties value)
    (entry : string * value) : properties value :=
  let (key, value) := entry in
  if instanceofDate value || isNull value || instanceofLong value then
    setProperty (rename key)
      (if instanceofLong value && longToString then LongToString value else value)
      newObject
  else if isObjectTag (typeof value) then
    setProperty (rename key) (recur value) newObject
  else
    setProperty (rename key) value newObject.

(** The entries of a [Long] hold a number or a boolean each: the loop takes
    its last branch on them. *)
Definition assignPrimitive (newObject : properties value) (entry : string * value)
  : properties value :=
  setProperty (rename (fst entry)) (snd entry) newObject.

(** The body, by cases on [obj] (its tests, in their order, are in
    [objectToCasing_body] below):
    - [typeof obj !== 'object' || obj === null]: [obj] is returned;
    - [Array.isArray(obj)]: [obj.map((value) => this.objectTo...Casing(value))];
    - any other object: the loop over [Object.entries(obj)] fills a new
      object.  A [Date] has no entry, and the entries of a [Long] are its
      three fields. *)
Fixpoint objectToCasing (obj : value) : value :=
  match obj with
  | VUndefined | VBoolean _ | VNumber _ | VString _ => obj
  | VNull => obj
  | VArray elements => VArray (map objectToCasing elements)
  | VObject o => VObject (fold_left (assignEntry objectToCasing) o [])
  | VDate _ => VObject []
  | VLong low high unsigned =>
      VObject (fold_left assignPrimitive (LongEntries low high unsigned) [])
  end.

End Walker.

(** [objectToArray], the same body in the three classes; [toTableCasing] is
    [this.objectToTableCasing]. *)
Definition objectToArrayWith (toTableCasing : value -> value) (obj : value) : list value :=
  if negb (isObjectTag (typeof obj)) || isNull obj then
    if isNull obj then [] else [obj]
  else
    fold_left
      (fun Output entry =>
         let value := snd entry in
         if isObjectTag (typeof value) then (Output ++ [toTableCasing value])%list
         else (Output ++ [value])%list)
      (ObjectEntries obj) [].

(** ** The three classes *)

Module UnderscoreCqlToCamelCaseMappings.
Section Instance.
(** [this.convertLongToString], set by the constructor. *)
Variable convertLongToString : bool.

Definition getColumnName : string -> string := underscoreGetColumnName.
Definition getPropertyName : string -> string := camelGetPropertyName.

(** Both bodies store
    [value instanceof Long && this.convertLongToString ? value.toString() : value]. *)
Definition objectToFixedCasing : value -> value :=
  objectToCasing getPropertyName convertLongToString.
Definition objectToTableCasing : value -> value :=
  objectToCasing getColumnName convertLongToString.

Definition objectToArray : value -> list value :=
  objectToArrayWith objectToTableCasing.
End Instance.
End UnderscoreCqlToCamelCaseMappings.

Module UnderscoreCqlToPascalCaseMappings.
Section Instance.
Variable convertLongToString : bool.

Definition getColumnName : string -> string := underscoreGetColumnName.
Definition getPropertyName : string -> string := pascalGetPropertyName.

(** The body tests [value instanceof Long && this.convertLongToString]. *)
Definition objectToFixedCasing : value -> value :=
  objectToCasing getPropertyName convertLongToString.

(** The body stores [value] in its first branch, whatever the flag. *)
Definition objectToTableCasing : value -> value :=
  objectToCasing getColumnName false.

Definition objectToArray : value -> list value :=
  objectToArrayWith objectToTableCasing.
End Instance.
End UnderscoreCqlToPascalCaseMappings.

Module DefaultTableMappings.
(** [super.getColumnName(propName)] and [super.getPropertyName(columnName)]
    of [TableMappings]. *)
Definition getColumnName (propName : string) : string := propName.
Definition getPropertyName (columnName : string) : string := columnName.

Definition objectToFixedCasing : value -> value :=
  objectToCasing getPropertyName false.
Definition objectToTableCasing : value -> value :=
  objectToCasing getColumnName false.

Definition objectToArray : value -> list value :=
  objectToArrayWith objectToTableCasing.
End DefaultTableMappings.

(** The interface [TableMappings] of index.d.ts, and its implementations. *)
Record TableMappings : Type := {
  getColumnName : string -> string;
  getPropertyName : string -> string;
  objectToArray : value -> list value;
  objectToFixedCasing : value -> value;
  objectToTableCasing : value -> value
}.

Inductive Strategy : Type :=
| Default
| CamelCase (convertLongToString : bool)
| PascalCase (convertLongToString : bool).

Definition mappings (s : Strategy) : TableMappings :=
  match s with
  | Default =>
      {| getColumnName := DefaultTableMappings.getColumnName;
         getPropertyName := DefaultTableMappings.getPropertyName;
         objectToArray := DefaultTableMappings.objectToArray;
         objectToFixedCasing := DefaultTableMappings.objectToFixedCasing;
         objectToTableCasing := DefaultTableMappings.objectToTableCasing |}
  | CamelCase flag =>
      {| getColumnName := UnderscoreCqlToCamelCaseMappings.getColumnName;
         getPropertyName := UnderscoreCqlToCamelCaseMappings.getPropertyName;
         objectToArray := UnderscoreCqlToCamelCaseMappings.objectToArray flag;
         objectToFixedCasing := UnderscoreCqlToCamelCaseMappings.objectToFixedCasing flag;
         objectToTableCasing := UnderscoreCqlToCamelCaseMappings.objectToTableCasing flag |}
  | PascalCase flag =>
      {| getColumnName := UnderscoreCqlToPascalCaseMappings.getColumnName;
         getPropertyName := UnderscoreCqlToPascalCaseMappings.getPropertyName;
         objectToArray := UnderscoreCqlToPascalCaseMappings.objectToArray;
         objectToFixedCasing := UnderscoreCqlToPascalCaseMappings.objectToFixedCasing flag;
         objectToTableCasing := UnderscoreCqlToPascalCaseMappings.objectToTableCasing |}
  end.

(** The two underscore strategies. *)
Definition isUnderscore (s : Strategy) : bool :=
  match s with Default => false | _ => true end.

(** ** Documents as the host holds them: objects in a store

    The walkers above take a document as a tree.  The host holds an object by
    reference, and an object may refer to itself.  [Aliased] embeds the same
    bodies over a store of objects and counts the frames of the call stack:
    a call that finds no frame left ends with the [RangeError] of the host
    (maximum call stack size exceeded). *)
Module Aliased.

Definition address : Type := nat.

(** A value: a primitive, or the address of an object. *)
Inductive hvalue : Type :=
| HUndefined
| HNull
| HBoolean (b : bool)
| HNumber (n : Z)
| HString (s : string)
| HObject (a : address).

Inductive object : Type :=
| ODate (time : Z)
| OLong (low high : Z) (unsigned : bool)
| OArray (elements : list hvalue)
| OPlain (props : properties hvalue).

Definition store : Type := list object.

(** How a call ends: with a result and the store it leaves, or with an
    exception, named by its class. *)
Inductive completion (A : Type) : Type :=
| Normal (result : A) (st : store)
| Throw (errorName : string).

Arguments Normal {A} result st.
Arguments Throw {A} errorName.

Definition Exec (A : Type) : Type := store -> completion A.

Definition ret {A : Type} (x : A) : Exec A := fun st => Normal x st.

Definition bind {A B : Type} (m : Exec A) (k : A -> Exec B) : Exec B :=
  fun st =>
    match m st with
    | Normal x st' => k x st'
    | Throw e => Throw e
    end.

Definition throw {A : Type} (errorName : string) : Exec A := fun _ => Throw errorName.

Notation "x <- m ;; k" := (bind m (fun x => k))
  (at level 61, m at next level, right associativity).

(** A new object, at the next free address. *)
Definition allocate (o : object) : Exec address :=
  fun st => Normal (List.length st) (st ++ [o])%list.

(** The object at an address (a store of the host has no dangling address;
    an object without properties stands at one). *)
Definition load (a : address) : Exec object :=
  fun st => Normal (nth a st (OPlain [])) st.

Fixpoint modify (a : address) (f : object -> object) (st : store) : store :=
  match st, a with
  | [], _ => []
  | o :: st', 0 => f o :: st'
  | o :: st', S a' => o :: modify a' f st'
  end.

(** [newObject[key] = v], for [newObject] made by [{}]. *)
Definition assign (newObject : address) (key : string) (v : hvalue) : Exec unit :=
  fun st =>
    Normal tt
      (modify newObject
         (fun o => match o with
                   | OPlain props => OPlain (setProperty key v props)
                   | _ => o
                   end) st).

(** The object a value refers to, if it refers to one. *)
Definition objectOf (v : hvalue) : Exec (option object) :=
  match v with
  | HObject a => o <- load a ;; ret (Some o)
  | _ => ret None
  end.

Definition typeof (v : hvalue) : typeTag :=
  match v with
  | HUndefined => TUndefined
  | HBoolean _ => TBoolean
  | HNumber _ => TNumber
  | HString _ => TString
  | HNull | HObject _ => TObject
  end.

Definition isNull (v : hvalue) : bool :=
  match v with HNull => true | _ => false end.

Definition instanceofDate (held : option object) : bool :=
  match held with Some (ODate _) => true | _ => false end.

Definition instanceofLong (held : option object) : bool :=
  match held with Some (OLong _ _ _) => true | _ => false end.

(** [value.toString()] of a [Long]. *)
Definition LongToString (held : option object) (v : hvalue) : hvalue :=
  match held with
  | Some (OLong low high unsigned) => HString (decimal (LongValue low high unsigned))
  | _ => v
  end.

(** [Object.entries(obj)] *)
Definition ObjectEntries (o : object) : properties hvalue :=
  match o with
  | OPlain props => props
  | OArray elements => indexEntries 0 elements
  | OLong low high unsigned =>
      [("low", HNumber low); ("high", HNumber high); ("unsigned", HBoolean unsigned)]
  | ODate _ => []
  end.

(** [for (const x of l) f(x)] *)
Fixpoint forEach {A : Type} (f : A -> Exec unit) (l : list A) : Exec unit :=
  match l with
  | [] => ret tt
  | x :: l' => _ <- f x ;; forEach f l'
  end.

(** [l.map((x) => f(x))] *)
Fixpoint mapEach {A B : Type} (f : A -> Exec B) (l : list A) : Exec (list B) :=
  match l with
  | [] => ret []
  | x :: l' => y <- f x ;; ys <- mapEach f l' ;; ret (y :: ys)
  end.

Section Walker.

Variable rename : string -> string.
Variable longToString : bool.

(** The body of the loop over [Object.entries(obj)]. *)
Definition assignEntry (recur : hvalue -> Exec hvalue) (newObject : address)
    (entry : string * hvalue) : Exec unit :=
  let (key, value) := entry in
  held <- objectOf value ;;
  if instanceofDate held || isNull value || instanceofLong held then
    assign newObject (rename key)
      (if instanceofLong held && longToString then LongToString held value else value)
  else if isObjectTag (typeof value) then
    converted <- recur value ;;
    assign newObject (rename key) converted
  else
    assign newObject (rename key) value.

(** The body of [objectToFixedCasing] and [objectToTableCasing], with
    [frames] frames left on the call stack. *)
Fixpoint objectToCasing (frames : nat) (obj : hvalue) : Exec hvalue :=
  match frames with
  | 0 => throw "RangeError"
  | S frames' =>
      if negb (isObjectTag (typeof obj)) || isNull obj then ret obj
      else
        held <- objectOf obj ;;
        match held with
        | Some (OArray elements) =>
            mapped <- mapEach (objectToCasing frames') elements ;;
            a <- allocate (OArray mapped) ;;
            ret (HObject a)
        | Some o =>
            newObject <- allocate (OPlain []) ;;
            _ <- forEach (assignEntry (objectToCasing frames') newObject)
                         (ObjectEntries o) ;;
            ret (HObject newObject)
        | None => ret obj
        end
  end.

End Walker.

(** [objectToTableCasing] of a strategy. *)
Definition objectToTableCasing (s : Strategy) : nat -> hvalue -> Exec hvalue :=
  match s with
  | Default => objectToCasing DefaultTableMappings.getColumnName false
  | CamelCase flag => objectToCasing UnderscoreCqlToCamelCaseMappings.getColumnName flag
  | PascalCase _ => objectToCasing UnderscoreCqlToPascalCaseMappings.getColumnName false
  end.

(** [st'] has the objects of [st] at their addresses, unchanged. *)
Definition preserves (st st' : store) : Prop :=
  List.length st <= List.length st' /\
  forall a, a < List.length st -> nth_error st' a = nth_error st a.

(** Reading a list of values, and the properties of an object, with [read]. *)
Fixpoint readList (read : hvalue -> option value) (l : list hvalue) : option (list value) :=
  match l with
  | [] => Some []
  | x :: l' =>
      match read x, readList read l' with
      | Some y, Some ys => Some (y :: ys)
      | _, _ => None
      end
  end.

Fixpoint readProperties (read : hvalue -> option value) (l : properties hvalue)
  : option (properties value) :=
  match l with
  | [] => Some []
  | (k, x) :: l' =>
      match read x, readProperties read l' with
      | Some y, Some ys => Some ((k, y) :: ys)
      | _, _ => None
      end
  end.

(** The tree a value of the store stands for, when it is one that [fuel]
    steps reach. *)
Fixpoint readBack (fuel : nat) (st : store) (v : hvalue) : option value :=
  match v with
  | HUndefined => Some VUndefined
  | HNull => Some VNull
  | HBoolean b => Some (VBoolean b)
  | HNumber n => Some (VNumber n)
  | HString s => Some (VString s)
  | HObject a =>
      match fuel with
      | 0 => None
      | S fuel' =>
          match nth_error st a with
          | Some (ODate time) => Some (VDate time)
          | Some (OLong low high unsigned) => Some (VLong low high unsigned)
          | Some (OArray elements) =>
              option_map VArray (readList (readBack fuel' st) elements)
          | Some (OPlain props) =>
              option_map VObject (readProperties (readBack fuel' st) props)
          | None => None
          end
      end
  end.

(** [st''] has the objects of [st'] at the addresses below [base] and at
    those from [lo] up to [hi]. *)
Definition agrees (base lo hi : nat) (st' st'' : store) : Prop :=
  forall a, a < base \/ (lo <= a /\ a < hi) -> nth_error st'' a = nth_error st' a.

(** The call that started in [st] ended normally, and its result reads as the
    tree [t] in every store that has the objects below [base] and those the
    call made. *)
Definition returnsTree (fuel : nat) (base st : store) (c : completion hvalue) (t : value)
  : Prop :=
  exists r st',
    c = Normal r st' /\
    forall st'', agrees (List.length base) (List.length st) (List.length st') st' st'' ->
                 readBack fuel st'' r = Some t.

(** In the middle of the loop: the object under construction, at [n], holds
    properties that read as [acc] in every store that has the objects below
    [base] and those made after [n]. *)
Definition accumulates (fuel : nat) (base : store) (n : address) (st : store)
    (acc : properties value) : Prop :=
  preserves base st /\
  n < List.length st /\
  exists props,
    nth_error st n = Some (OPlain props) /\
    forall st'', agrees (List.length base) (S n) (List.length st) st st'' ->
                 readProperties (readBack fuel st'') props = Some acc.

(** The object at [a] holds the object at [b]: as the value of a property, or
    as an element when it is an array. *)
Definition holds (st : store) (a b : address) : Prop :=
  match nth_error st a with
  | Some (OPlain props) => exists key, In (key, HObject b) props
  | Some (OArray elements) => In (HObject b) elements
  | _ => False
  end.

(** Every object of [family] holds an object of [family]: from each of them
    a walk along [holds] never ends.  The objects of a cycle, and those that
    lead to one, make such a family. *)
Definition endless (st : store) (family : list address) : Prop :=
  forall a, In a family -> exists b, In b family /\ holds st a b.

(** The object a value refers to, read in the store. *)
Definition heldIn (st : store) (v : hvalue) : option object :=
  match v with
  | HObject a => Some (nth a st (OPlain []))
  | _ => None
  end.

(** A call of [f] leaves the objects it found in the store as they were. *)
Definition keepsStore (f : hvalue -> Exec hvalue) : Prop :=
  forall v st r st', f v st = Normal r st' -> preserves st st'.

(** A call of [f] throws nothing but the [RangeError] of the host. *)
Definition throwsRangeErrorOnly (f : hvalue -> Exec hvalue) : Prop :=
  forall v st e, f v st = Throw e -> e = "RangeError".

(** [const o = {}; o[key] = o]: an object that holds itself. *)
Definition selfReferencing (key : string) : store := [OPlain [(key, HObject 0)]].

(** [const a = []; a.push(a)] *)
Definition selfContaining : store := [OArray [HObject 0]].

(** [const o = { name: "o" }; const l = [1, o]; o.peers = l]: a cycle through
    two objects. *)
Definition mutualReference : store :=
  [OPlain [("name", HString "o"); ("peers", HObject 1)]; OArray [HNumber 1; HObject 0]].

End Aliased.

(** What the split on ['_'], the capitalisation of the segments and the join
    amount to, character by character: underscores are dropped, and the first
    character after an underscore is upper-cased ([pending]); the Pascal
    variant starts with [pending] set. *)
Fixpoint capitalizeAfterUnderscore (pending : bool) (s : string) : string :=
  match s with
  | EmptyString => EmptyString
  | String c s' =>
      if Ascii.eqb c "_" then capitalizeAfterUnderscore true s'
      else String (if pending then charToUpper c else c)
                  (capitalizeAfterUnderscore false s')
  end.

(** A key matches a reserved word case-insensitively. *)
Definition matchesReservedWord (name : string) : Prop :=
  exists word, In word ReservedWordsLiteral /\ toLowerCase word = toLowerCase name.

(** The first character, when there is one, satisfies [p]. *)
Definition startsWith (p : ascii -> bool) (s : string) : bool :=
  match s with
  | EmptyString => false
  | String c _ => p c
  end.

(** ** The older copy of the camel class

    The second copy of the classes in the source file has another
    [getPropertyName] for the camel class. *)

(** [columnName.replace(/_[a-z]/g, (match, offset) =>
      ((offset === 0) ? match : match.substr(1).toUpperCase()))]:
    the matches are taken from left to right and do not overlap; [offset] is
    the index of the match in [columnName]. *)
Fixpoint replaceUnderscoreLower (offset : nat) (s : string) : string :=
  match s with
  | EmptyString => EmptyString
  | String c s' =>
      match s' with
      | String d s'' =>
          if Ascii.eqb c "_" && isLowerAZ d then
            (if Nat.eqb offset 0 then String c (String d EmptyString)
             else toUpperCase (slice1 (String c (String d EmptyString))))
            ++ replaceUnderscoreLower (offset + 2) s''
          else String c (replaceUnderscoreLower (offset + 1) s')
      | EmptyString => String c EmptyString
      end
  end.

(** [getPropertyName] of the older [UnderscoreCqlToCamelCaseMappings]. *)
Definition olderCamelGetPropertyName (columnName : string) : string :=
  replaceUnderscoreLower 0 columnName.

(** ** Shapes of identifiers *)

(** Every underscore is followed by a lowercase letter. *)
Fixpoint underscoresBeforeLower (s : string) : bool :=
  match s with
  | EmptyString => true
  | String c s' =>
      (negb (Ascii.eqb c "_") || startsWith isLowerAZ s') && underscoresBeforeLower s'
  end.

(** A column name in snake case: no capital, no underscore in front, and a
    lowercase letter after every underscore. *)
Definition snakeName (s : string) : bool :=
  negb (anyChar isUpperAZ s)
  && negb (startsWith (Ascii.eqb "_") s)
  && underscoresBeforeLower s.

(** Every capital is followed by a lowercase letter. *)
Fixpoint capitalsBeforeLower (s : string) : bool :=
  match s with
  | EmptyString => true
  | String c s' =>
      (negb (isUpperAZ c) || startsWith isLowerAZ s') && capitalsBeforeLower s'
  end.

(** ** Shapes of documents *)

(** [o[key]], for an own property. *)
Definition getOwnProperty {V : Type} (key : string) (o : properties V) : option V :=
  option_map snd (find (fun kv => String.eqb (fst kv) key) o).

(** The keys are pairwise different. *)
Fixpoint distinct (keys : list string) : bool :=
  match keys with
  | [] => true
  | k :: rest => negb (existsb (String.eqb k) rest) && distinct rest
  end.

(** A key that is neither [__proto__] nor an array index. *)
Definition plainKey (key : string) : bool :=
  negb (String.eqb key "__proto__")
  && match arrayIndex key with Some _ => false | None => true end.

(** The value the loop of the walkers stores for the value [v] of an entry:
    the right-hand side of the assignment in the branch that [v] takes. *)
Definition storedValue (longToString : bool) (recur : value -> value) (v : value)
  : value :=
  if instanceofDate v || isNull v || instanceofLong v then
    if instanceofLong v && longToString then LongToString v else v
  else if isObjectTag (typeof v) then recur v
  else v.

(** The element [objectToArray] pushes for the value [v] of an entry. *)
Definition pushedValue (toTableCasing : value -> value) (v : value) : value :=
  if isObjectTag (typeof v) then toTableCasing v else v.

(** The document with every key renamed, and nothing else changed. *)
Fixpoint renameKeys (rename : string -> string) (v : value) : value :=
  match v with
  | VArray elements => VArray (map (renameKeys rename) elements)
  | VObject o => VObject (map (fun kv => (rename (fst kv), renameKeys rename (snd kv))) o)
  | _ => v
  end.

(** A document on which a walker with [rename] and [longToString] only
    renames: a [Date] or a [Long] is the value of a property ([leaf]: the
    value is one), never the document itself nor an element of an array; a
    [Long] occurs only when [longToString] is off; the renamed keys of every
    object are plain and pairwise different. *)
Fixpoint regular (rename : string -> string) (longToString leaf : bool) (v : value) : bool :=
  match v with
  | VDate _ => leaf
  | VLong _ _ _ => leaf && negb longToString
  | VArray elements => forallb (regular rename longToString false) elements
  | VObject o =>
      forallb plainKey (map (fun kv => rename (fst kv)) o)
      && distinct (map (fun kv => rename (fst kv)) o)
      && forallb (fun kv => regular rename longToString true (snd kv)) o
  | _ => true
  end.

(** Every key of the document satisfies [good]. *)
Fixpoint keysAll (good : string -> bool) (v : value) : bool :=
  match v with
  | VArray elements => forallb (keysAll good) elements
  | VObject o => forallb (fun kv => good (fst kv) && keysAll good (snd kv)) o
  | _ => true
  end.

(** The flag that the body of [objectToTableCasing] tests, and the one that
    the body of [objectToFixedCasing] tests, in each class. *)
Definition tableFlag (s : Strategy) : bool :=
  match s with
  | CamelCase flag => flag
  | _ => false
  end.

Definition fixedFlag (s : Strategy) : bool :=
  match s with
  | CamelCase flag => flag
  | PascalCase flag => flag
  | Default => false
  end.

(** The property names of a strategy: ordinary keys for the default one,
    letters starting with a lowercase letter for the camel one and with a
    capital for the Pascal one. *)
Definition propertyKey (s : Strategy) (key : string) : bool :=
  match s with
  | Default => plainKey key
  | CamelCase _ => allChars isLetter key && startsWith isLowerAZ key
  | PascalCase _ => allChars isLetter key && startsWith isUpperAZ key
  end.

(** ** The older copy of the walkers

    In the second copy of the classes the walkers and [objectToArray] start
    with [Object.entries(obj)], without a test of [obj], and the loop does not
    test [value instanceof Long]. *)

(** How a call of the older copy ends: with a result, or with an exception,
    named by its class. *)
Inductive outcome (A : Type) : Type :=
| Returned (result : A)
| Thrown (errorName : string).

Arguments Returned {A} result.
Arguments Thrown {A} errorName.

(** The characters of a string, as [Object.entries] gives them. *)
Definition characterEntries (s : string) : properties value :=
  indexEntries 0 (map (fun c => VString (String c EmptyString)) (list_ascii_of_string s)).

(** [Object.entries(obj)] for any [obj]: a [TypeError] for [undefined] and
    [null]; the characters of a string under their indices; nothing for a
    number or a boolean. *)
Definition entriesOf (obj : value) : outcome (properties value) :=
  match obj with
  | VUndefined | VNull => Thrown "TypeError"
  | VBoolean _ | VNumber _ => Returned []
  | VString s => Returned (characterEntries s)
  | _ => Returned (ObjectEntries obj)
  end.

(** [l.map((x) => f(x))], where a call of [f] may throw. *)
Fixpoint mapOutcome {A B : Type} (f : A -> outcome B) (l : list A) : outcome (list B) :=
  match l with
  | [] => Returned []
  | x :: l' =>
      match f x with
      | Thrown e => Thrown e
      | Returned y =>
          match mapOutcome f l' with
          | Thrown e => Thrown e
          | Returned ys => Returned (y :: ys)
          end
      end
  end.

Module OlderCopy.

Section Walker.

Variable rename : string -> string.

(** The body of the older loop; [newObject] is the object so far, or the
    exception that ended the loop. *)
Definition assignEntry (recur : value -> outcome value)
    (newObject : outcome (properties value)) (entry : string * value)
  : outcome (properties value) :=
  match newObject with
  | Thrown e => Thrown e
  | Returned o =>
      let (key, value) := entry in
      if instanceofDate value || isNull value then
        Returned (setProperty (rename key) value o)
      else if isObjectTag (typeof value) then
        match recur value with
        | Returned converted => Returned (setProperty (rename key) converted o)
        | Thrown e => Thrown e
        end
      else
        Returned (setProperty (rename key) value o)
  end.

(** The older body of [objectToFixedCasing] and [objectToTableCasing], by
    cases on [obj] (its tests are in [objectToCasing_body] below): an array
    is mapped; of anything else the entries are taken.  The entries of a
    string, of a [Long], of a number, of a boolean and of a [Date] hold no
    object: the loop takes its last branch on them. *)
Fixpoint objectToCasing (obj : value) : outcome value :=
  match obj with
  | VArray elements =>
      match mapOutcome objectToCasing elements with
      | Returned mapped => Returned (VArray mapped)
      | Thrown e => Thrown e
      end
  | VObject o =>
      match fold_left (assignEntry objectToCasing) o (Returned []) with
      | Returned newObject => Returned (VObject newObject)
      | Thrown e => Thrown e
      end
  | VUndefined | VNull => Thrown "TypeError"
  | VBoolean _ | VNumber _ | VDate _ => Returned (VObject [])
  | VString s =>
      Returned (VObject (fold_left (assignPrimitive rename) (characterEntries s) []))
  | VLong low high unsigned =>
      Returned (VObject (fold_left (assignPrimitive rename) (LongEntries low high unsigned) []))
  end.

End Walker.

(** The older [objectToArray]; [toTableCasing] is [this.objectToTableCasing]. *)
Definition objectToArrayWith (toTableCasing : value -> outcome value) (obj : value)
  : outcome (list value) :=
  match entriesOf obj with
  | Thrown e => Thrown e
  | Returned entries =>
      fold_left
        (fun Output entry =>
           match Output with
           | Thrown e => Thrown e
           | Returned pushed =>
               let value := snd entry in
               if isObjectTag (typeof value) then
                 match toTableCasing value with
                 | Returned converted => Returned (pushed ++ [converted])%list
                 | Thrown e => Thrown e
                 end
               else Returned (pushed ++ [value])%list
           end)
        entries (Returned [])
  end.

(** The older [UnderscoreCqlToCamelCaseMappings] and
    [UnderscoreCqlToPascalCaseMappings]: their [objectToTableCasing] and
    [objectToArray] are the same in both. *)
Definition objectToTableCasing : value -> outcome value :=
  objectToCasing underscoreGetColumnName.
Definition camelObjectToFixedCasing : value -> outcome value :=
  objectToCasing olderCamelGetPropertyName.
Definition pascalObjectToFixedCasing : value -> outcome value :=
  objectToCasing pascalGetPropertyName.
Definition objectToArray : value -> outcome (list value) :=
  objectToArrayWith objectToTableCasing.

(** The value the older loop stores for the value [v] of an entry, or the
    exception of the recursive call. *)
Definition storedValue (recur : value -> outcome value) (v : value) : outcome value :=
  if instanceofDate v || isNull v then Returned v
  else if isObjectTag (typeof v) then recur v
  else Returned v.

End OlderCopy.


(** The older walkers reach [undefined] or [null] with [Object.entries]: the
    document is one of them, or one is an element of an array that the walk
    comes to. *)
Fixpoint reachesNull (v : value) : bool :=
  match v with
  | VUndefined | VNull => true
  | VArray elements => existsb reachesNull elements
  | VObject o =>
      existsb (fun kv => isObjectTag (typeof (snd kv)) && negb (isNull (snd kv))
                         && reachesNull (snd kv)) o
  | _ => false
  end.

(** The older [objectToArray] reaches [undefined] or [null]: its argument is
    one of them, or it hands one of its values to the older
    [objectToTableCasing], which reaches one. *)
Definition arrayReachesNull (obj : value) : bool :=
  match entriesOf obj with
  | Thrown _ => true
  | Returned entries =>
      existsb (fun kv => isObjectTag (typeof (snd kv)) && reachesNull (snd kv)) entries
  end.

(** * Properties *)

(** ** Characters and strings *)

Ltac all_ascii c :=
  destruct c as [[] [] [] [] [] [] [] []];
  vm_compute; intros; try reflexivity; try discriminate.

Lemma charToLower_idem (c : ascii) : charToLower (charToLower c) = charToLower c.
Proof. all_ascii c. Qed.

Lemma upper_of_lower (c : ascii) : isUpperAZ c = true -> charToUpper (charToLower c) = c.
Proof. all_ascii c. Qed.

Lemma lower_of_nonupper (c : ascii) : isUpperAZ c = false -> charToLower c = c.
Proof. unfold charToLower; intros ->; reflexivity. Qed.

Lemma letter_lower_not_underscore (c : ascii) :
  isLetter c = true -> Ascii.eqb (charToLower c) "_" = false.
Proof. all_ascii c. Qed.

Lemma letter_upper_or_lower (c : ascii) :
  isLetter c = true -> isUpperAZ c = false -> isLowerAZ c = true.
Proof. unfold isLetter; intros H1 H2; rewrite H2 in H1; exact H1. Qed.

Lemma lower_not_upper (c : ascii) : isLowerAZ c = true -> isUpperAZ c = false.
Proof. all_ascii c. Qed.

Lemma toLowerCase_app (a b : string) :
  toLowerCase (a ++ b) = toLowerCase a ++ toLowerCase b.
Proof. induction a as [|c a IH]; simpl; [reflexivity | now rewrite IH]. Qed.

Lemma toLowerCase_idem (s : string) : toLowerCase (toLowerCase s) = toLowerCase s.
Proof.
  induction s as [|c s IH]; simpl; [reflexivity|].
  now rewrite charToLower_idem, IH.
Qed.

Lemma append_empty_r (s : string) : s ++ "" = s.
Proof. induction s as [|c s IH]; simpl; [reflexivity | now rewrite IH]. Qed.

Lemma append_assoc (a b c : string) : (a ++ b) ++ c = a ++ (b ++ c).
Proof. induction a as [|x a IH]; simpl; [reflexivity | now rewrite IH]. Qed.

Lemma append_length (a b : string) :
  String.length (a ++ b) = String.length a + String.length b.
Proof. induction a as [|x a IH]; simpl; [reflexivity | now rewrite IH]. Qed.

(** ** Splitting and joining *)

Lemma join_cons (sep x : string) (l : list string) :
  l <> [] -> join sep (x :: l) = x ++ sep ++ join sep l.
Proof. destruct l; [congruence | reflexivity]. Qed.

Lemma join_empty_cons (x : string) (l : list string) :
  join "" (x :: l) = x ++ join "" l.
Proof.
  destruct l as [|y l]; simpl; [now rewrite append_empty_r | reflexivity].
Qed.

Lemma join_consHead (sep : string) (c : ascii) (l : list string) :
  join sep (consHead c l) = String c (join sep l).
Proof. destruct l as [|h [|h' t]]; reflexivity. Qed.

Lemma consHead_not_nil (c : ascii) (l : list string) : consHead c l <> [].
Proof. destruct l; discriminate. Qed.

Lemma splitBefore_cons2 (p : ascii -> bool) (c d : ascii) (s : string) :
  splitBefore p (String c (String d s)) =
  if p d then String c EmptyString :: splitBefore p (String d s)
  else consHead c (splitBefore p (String d s)).
Proof. reflexivity. Qed.

Lemma splitBefore_not_nil (p : ascii -> bool) (s : string) : splitBefore p s <> [].
Proof.
  destruct s as [|c [|d s]]; try discriminate.
  rewrite splitBefore_cons2.
  destruct (p d); [discriminate | apply consHead_not_nil].
Qed.

Lemma split_not_nil (sep : ascii) (s : string) : split sep s <> [].
Proof.
  destruct s as [|c s]; [discriminate|].
  cbn [split].
  destruct (Ascii.eqb c sep); [discriminate | apply consHead_not_nil].
Qed.

(** *** The split loop of the language *)

Lemma splitBefore_inside (p : ascii -> bool) (c : ascii) (s : string) :
  splitBefore p (String c s) = consHead c (segmentsFromInside p s).
Proof.
  revert c; induction s as [|d s IH]; intros c; [reflexivity|].
  change (splitBefore p (String c (String d s))) with
    (if p d then String c EmptyString :: splitBefore p (String d s)
          else consHead c (splitBefore p (String d s))).
  cbn [segmentsFromInside]. rewrite IH. destruct (p d); reflexivity.
Qed.

Lemma get_after (pre : string) (c : ascii) (rest : string) :
  String.get (String.length pre) (pre ++ String c rest) = Some c.
Proof. induction pre as [|x pre IH]; [reflexivity | exact IH]. Qed.

Lemma substring_prefix (cur rest : string) :
  substring 0 (String.length cur) (cur ++ rest) = cur.
Proof.
  induction cur as [|y cur IH].
  - destruct rest; reflexivity.
  - cbn [String.length append substring]. now rewrite IH.
Qed.

Lemma substring_middle (pre cur rest : string) :
  substring (String.length pre) (String.length cur) (pre ++ cur ++ rest) = cur.
Proof.
  induction pre as [|x pre IH]; [exact (substring_prefix cur rest) | exact IH].
Qed.

Lemma prefixHead_consHead (w : string) (c : ascii) (l : list string) :
  prefixHead w (consHead c l) = prefixHead (w ++ String c "") l.
Proof.
  destruct l as [|h t]; cbn [prefixHead consHead]; rewrite ?append_assoc; reflexivity.
Qed.

Lemma prefixHead_single (c : ascii) (l : list string) :
  prefixHead (String c "") l = consHead c l.
Proof. destruct l; reflexivity. Qed.

Lemma eqb_empty_length (s : string) : String.eqb s "" = Nat.eqb (String.length s) 0.
Proof. destruct s; reflexivity. Qed.

Lemma splitLoop_segments (p : ascii -> bool) (S : string) :
  forall steps rest pre cur pIndex q A,
    S = pre ++ cur ++ rest ->
    pIndex = String.length pre ->
    q = String.length pre + String.length cur ->
    2 * String.length rest + (if String.eqb cur "" then 0 else 1) < steps ->
    splitLoop steps p S (String.length S) pIndex q A
    = (A ++ (if String.eqb cur "" then
               match rest with
               | EmptyString => [EmptyString]
               | String c r => consHead c (segmentsFromInside p r)
               end
             else prefixHead cur (segmentsFromInside p rest)))%list.
Proof.
  induction steps as [|steps IH]; intros rest pre cur pIndex q A HS Hp Hq Hsteps; [lia|].
  assert (Hsize : String.length S = q + String.length rest)
    by (rewrite HS, !append_length; lia).
  cbn [splitLoop]. destruct rest as [|c r].
  - replace (Nat.ltb q (String.length S)) with false
      by (symmetry; apply Nat.ltb_ge; cbn in Hsize; lia).
    replace (String.length S - pIndex) with (String.length cur) by (cbn in Hsize; lia).
    rewrite Hp, HS, substring_middle.
    destruct cur; [reflexivity|]. cbn. now rewrite append_empty_r.
  - replace (Nat.ltb q (String.length S)) with true
      by (symmetry; apply Nat.ltb_lt; cbn in Hsize; lia).
    assert (Hget : lookaheadMatches p S q = p c).
    { unfold lookaheadMatches.
      rewrite HS, <- append_assoc, Hq, <- append_length, get_after. reflexivity. }
    rewrite Hget. cbn [segmentsFromInside].
    assert (Hnext : S = pre ++ (cur ++ String c "") ++ r)
      by (rewrite HS, (append_assoc cur); reflexivity).
    assert (Hnonempty : String.eqb (cur ++ String c "") "" = false)
      by (destruct cur; reflexivity).
    destruct (p c).
    + replace (Nat.eqb q pIndex) with (String.eqb cur "")
        by (rewrite eqb_empty_length; destruct (String.length cur) eqn:E;
            [symmetry; apply Nat.eqb_eq | symmetry; apply Nat.eqb_neq]; lia).
      destruct (String.eqb cur "") eqn:Hcur.
      * rewrite (IH r pre (cur ++ String c "") pIndex (q + 1) A Hnext Hp);
          [ | rewrite append_length; cbn; lia | rewrite Hnonempty; cbn in Hsteps; lia].
        rewrite Hnonempty.
        destruct cur; [|discriminate]. cbn [append]. now rewrite prefixHead_single.
      * replace (q - pIndex) with (String.length cur) by lia.
        assert (Hsub : substring pIndex (String.length cur) S = cur)
          by (rewrite Hp, HS; apply substring_middle).
        rewrite Hsub.
        rewrite (IH (String c r) (pre ++ cur) "" q q (A ++ [cur])%list);
          [ | rewrite HS, append_assoc; reflexivity | rewrite append_length; lia
            | rewrite append_length; cbn; lia | cbn in *; lia].
        cbn [String.eqb prefixHead]. rewrite append_empty_r, <- app_assoc. reflexivity.
    + rewrite (IH r pre (cur ++ String c "") pIndex (q + 1) A Hnext Hp);
        [ | rewrite append_length; cbn; lia
          | rewrite Hnonempty; destruct (String.eqb cur ""); cbn in Hsteps; lia].
      rewrite Hnonempty.
      destruct (String.eqb cur "") eqn:Hcur.
      * destruct cur; [|discriminate]. cbn [append]. now rewrite prefixHead_single.
      * now rewrite prefixHead_consHead.
Qed.

(** The loop of the language and [splitBefore] give the same segments. *)
Lemma splitOnLookahead_splitBefore (p : ascii -> bool) (S : string) :
  splitOnLookahead p S = splitBefore p S.
Proof.
  unfold splitOnLookahead. destruct S as [|c r]; [reflexivity|].
  cbn [String.length Nat.eqb].
  rewrite (splitLoop_segments p (String c r) _ (String c r) "" "" 0 0 []);
    try reflexivity; [|cbn; lia].
  cbn [String.eqb app]. symmetry. apply splitBefore_inside.
Qed.

(** The split on the lookahead loses nothing: the segments, put together, are
    the string. *)
Lemma splitBefore_join (p : ascii -> bool) (s : string) :
  join "" (splitBefore p s) = s.
Proof.
  induction s as [|c s IH]; [reflexivity|].
  destruct s as [|d s]; [reflexivity|].
  rewrite splitBefore_cons2.
  destruct (p d).
  - rewrite join_empty_cons, IH. reflexivity.
  - rewrite join_consHead, IH. reflexivity.
Qed.

(** [Propertyname], character by character. *)
Lemma Propertyname_cons (c : ascii) (s : string) :
  Propertyname (String c s) = String (charToLower c) (everyCapitalSnake false s).
Proof.
  unfold Propertyname. rewrite splitOnLookahead_splitBefore. revert c.
  induction s as [|d s IH]; intros c; [reflexivity|].
  rewrite splitBefore_cons2.
  simpl everyCapitalSnake.
  destruct (isUpperAZ d).
  - rewrite join_cons by apply splitBefore_not_nil.
    rewrite !toLowerCase_app, IH. reflexivity.
  - rewrite join_consHead. cbn [toLowerCase]. rewrite IH. reflexivity.
Qed.

Lemma Propertyname_every_capital (s : string) :
  Propertyname s = everyCapitalSnake true s.
Proof. destruct s as [|c s]; [reflexivity | apply Propertyname_cons]. Qed.

Lemma mapIndexFrom_succ (i : nat) (l : list string) :
  mapIndexFrom (fun word index => if Nat.eqb index 0 then word else capitalize word) (S i) l
  = map capitalize l.
Proof.
  revert i; induction l as [|w l IH]; intros i; simpl; [reflexivity|].
  now rewrite IH.
Qed.

Lemma capitalize_cons (c : ascii) (w : string) :
  capitalize (String c w) = String (charToUpper c) w.
Proof. reflexivity. Qed.

(** The camel variant, by segments: the first one as it is, the others
    capitalised. *)
Lemma camelGetPropertyName_segments (columnName : string) :
  camelGetPropertyName columnName =
  match split "_" columnName with
  | [] => EmptyString
  | first :: rest => first ++ join "" (map capitalize rest)
  end.
Proof.
  unfold camelGetPropertyName, mapIndex.
  destruct (split "_" columnName) as [|first rest]; [reflexivity|].
  simpl mapIndexFrom. rewrite mapIndexFrom_succ. apply join_empty_cons.
Qed.

(** Both variants, character by character. *)
Lemma getPropertyName_chars (s : string) :
  pascalGetPropertyName s = capitalizeAfterUnderscore true s /\
  camelGetPropertyName s = capitalizeAfterUnderscore false s.
Proof.
  rewrite camelGetPropertyName_segments. unfold pascalGetPropertyName.
  induction s as [|c s [IHp IHc]]; [split; reflexivity|].
  simpl split. simpl capitalizeAfterUnderscore.
  destruct (Ascii.eqb c "_").
  - split.
    + simpl map. rewrite join_empty_cons. exact IHp.
    + exact IHp.
  - pose proof (split_not_nil "_" s) as Hne.
    destruct (split "_" s) as [|h t]; [congruence|].
    simpl consHead. split.
    + simpl map. rewrite join_empty_cons, capitalize_cons. simpl.
      now rewrite IHc.
    + simpl. now rewrite IHc.
Qed.

Lemma capitalizeAfterUnderscore_trailing (pending : bool) (s : string) :
  capitalizeAfterUnderscore pending (s ++ "_") = capitalizeAfterUnderscore pending s.
Proof.
  revert pending; induction s as [|c s IH]; intros pending; [reflexivity|].
  simpl. destruct (Ascii.eqb c "_"); now rewrite IH.
Qed.

(** ** The reserved words *)

Lemma includes_In (arr : list string) (s : string) :
  includes arr s = true <-> In s arr.
Proof.
  unfold includes. rewrite existsb_exists. split.
  - intros [w [Hin Heq]]. apply String.eqb_eq in Heq. now subst.
  - intros Hin. exists s. split; [exact Hin | apply String.eqb_refl].
Qed.

Lemma Propertyname_lowercase (x : string) :
  toLowerCase (Propertyname x) = Propertyname x.
Proof. unfold Propertyname. apply toLowerCase_idem. Qed.

Lemma includes_matchesReservedWord (x : string) :
  includes ReservedWords (Propertyname x) = true <-> matchesReservedWord (Propertyname x).
Proof.
  rewrite includes_In. unfold ReservedWords, matchesReservedWord.
  rewrite in_map_iff, Propertyname_lowercase.
  split; intros [w [H1 H2]]; exists w; tauto.
Qed.

Lemma everyCapitalSnake_no_capital (s : string) :
  anyChar isUpperAZ s = false -> everyCapitalSnake false s = toLowerCase s.
Proof.
  unfold anyChar.
  induction s as [|c s IH]; [reflexivity|].
  simpl. intros H. apply orb_false_iff in H as [Hc Hs].
  rewrite Hc. simpl. now rewrite IH.
Qed.

Lemma Propertyname_no_capital (x : string) :
  anyChar isUpperAZ (slice1 x) = false -> Propertyname x = toLowerCase x.
Proof.
  destruct x as [|c s]; [reflexivity|].
  simpl slice1. intros H.
  rewrite Propertyname_cons, everyCapitalSnake_no_capital by exact H.
  reflexivity.
Qed.

Lemma append_underscore_differs (s : string) : s ++ "_" <> s.
Proof.
  intros H. apply (f_equal String.length) in H.
  rewrite append_length in H. simpl in H. lia.
Qed.

(** ** The round trip of an identifier, character by character *)

Lemma allChars_cons (p : ascii -> bool) (c : ascii) (s : string) :
  allChars p (String c s) = p c && allChars p s.
Proof. reflexivity. Qed.

Lemma interior_round_trip (x : string) :
  allChars isLetter x = true ->
  capitalizeAfterUnderscore false (everyCapitalSnake false x) = x.
Proof.
  induction x as [|c x IH]; [reflexivity|].
  rewrite allChars_cons. intros H. apply andb_true_iff in H as [Hc Hx].
  cbn [everyCapitalSnake negb andb].
  destruct (isUpperAZ c) eqn:Hup.
  - cbn [capitalizeAfterUnderscore].
    change (Ascii.eqb "_" "_") with true. cbn iota.
    rewrite (letter_lower_not_underscore c Hc), (upper_of_lower c Hup), (IH Hx).
    reflexivity.
  - cbn [capitalizeAfterUnderscore].
    rewrite (letter_lower_not_underscore c Hc), (lower_of_nonupper c Hup), (IH Hx).
    reflexivity.
Qed.

Lemma first_round_trip (pascal : bool) (x : string) :
  allChars isLetter x = true ->
  startsWith (if pascal then isUpperAZ else isLowerAZ) x = true ->
  capitalizeAfterUnderscore pascal (Propertyname x) = x.
Proof.
  destruct x as [|c x]; [discriminate|].
  rewrite allChars_cons. intros H Hfirst. apply andb_true_iff in H as [Hc Hx].
  rewrite Propertyname_cons. cbn [capitalizeAfterUnderscore startsWith] in *.
  rewrite (letter_lower_not_underscore c Hc), (interior_round_trip x Hx).
  destruct pascal.
  - now rewrite (upper_of_lower c Hfirst).
  - now rewrite (lower_of_nonupper c (lower_not_upper c Hfirst)).
Qed.

Lemma underscore_round_trip (pascal : bool) (x : string) :
  allChars isLetter x = true ->
  startsWith (if pascal then isUpperAZ else isLowerAZ) x = true ->
  capitalizeAfterUnderscore pascal (underscoreGetColumnName x) = x.
Proof.
  intros Hx Hfirst. unfold underscoreGetColumnName.
  destruct (includes ReservedWords (Propertyname x)).
  - rewrite capitalizeAfterUnderscore_trailing. now apply first_round_trip.
  - now apply first_round_trip.
Qed.

(** * The claims *)

(** C1 (the code departs from the claim).  [getColumnName] puts an underscore
    before every capital that is not the first character, also inside a run
    of capitals: ["userID"] becomes ["user_i_d"] in both underscore classes.
    The conversion the claim words, and the [snakeCase] type that index.d.ts
    declares for the column names, both give ["user_id"]. *)
Theorem getColumnName_splits_capital_runs :
  getColumnName (mappings (CamelCase false)) "userID" = "user_i_d" /\
  getColumnName (mappings (PascalCase false)) "userID" = "user_i_d" /\
  lookaheadSnake None "userID" = "user_id" /\
  snakeCase "userID" None = "user_id".
Proof. repeat split; reflexivity. Qed.

(** The declared type and the claim part on a capital that ends the name:
    the pattern of [snakeCase] needs two characters, and the last one is
    lowercased without a separator. *)
Lemma snakeCase_final_capital :
  snakeCase "userI" None = "useri" /\
  lookaheadSnake None "userI" = "user_i" /\
  underscoreGetColumnName "userI" = "user_i".
Proof. repeat split; reflexivity. Qed.

(** C6.  [getPropertyName] of the camel class splits the column name on
    underscores, keeps the first segment, capitalises the first character of
    each later segment and concatenates; the Pascal class capitalises every
    segment, the first included.  ["user_id"] gives ["userId"] (camel) and
    ["UserId"] (Pascal), and [getColumnName] of ["userId"] is ["user_id"]. *)
Theorem getPropertyName_by_segments (flag : bool) :
  (forall columnName,
      getPropertyName (mappings (CamelCase flag)) columnName =
      match split "_" columnName with
      | [] => EmptyString
      | first :: rest => first ++ join "" (map capitalize rest)
      end) /\
  (forall columnName,
      getPropertyName (mappings (PascalCase flag)) columnName =
      join "" (map capitalize (split "_" columnName))) /\
  (forall c word, capitalize (String c word) = String (charToUpper c) word) /\
  capitalize "" = "" /\
  getPropertyName (mappings (CamelCase flag)) "user_id" = "userId" /\
  getPropertyName (mappings (PascalCase flag)) "user_id" = "UserId" /\
  getColumnName (mappings (CamelCase flag)) "userId" = "user_id" /\
  getColumnName (mappings (PascalCase flag)) "userId" = "user_id".
Proof.
  split; [|repeat split].
  intros columnName. apply camelGetPropertyName_segments.
Qed.

(** C7, amended.  For an underscore strategy and a property name [x]:
    when [x] lowercases to ["select"] and has no capital after its first
    character, [getColumnName x] is ["select_"]; in general the result is the
    snake-cased name followed by one underscore when that name matches a
    reserved word case-insensitively, and the snake-cased name itself
    otherwise. *)
Theorem getColumnName_escapes_reserved (s : Strategy) (x : string) :
  isUnderscore s = true ->
  (toLowerCase x = "select" -> anyChar isUpperAZ (slice1 x) = false ->
   getColumnName (mappings s) x = "select_") /\
  (getColumnName (mappings s) x = Propertyname x ++ "_" <->
   matchesReservedWord (Propertyname x)) /\
  (getColumnName (mappings s) x = Propertyname x <->
   ~ matchesReservedWord (Propertyname x)).
Proof.
  intros Hs.
  assert (Hcol : getColumnName (mappings s) x = underscoreGetColumnName x)
    by (destruct s; [discriminate | reflexivity | reflexivity]).
  rewrite Hcol. unfold underscoreGetColumnName.
  pose proof (includes_matchesReservedWord x) as Hinc.
  pose proof (append_underscore_differs (Propertyname x)) as Hdiff.
  destruct (includes ReservedWords (Propertyname x)) eqn:E.
  - assert (Hm : matchesReservedWord (Propertyname x)) by now apply Hinc.
    repeat split; try tauto.
    intros Hlow Hcap.
    rewrite (Propertyname_no_capital x Hcap), Hlow. reflexivity.
  - assert (Hm : ~ matchesReservedWord (Propertyname x)).
    { intros Hm. apply Hinc in Hm. discriminate. }
    repeat split; try tauto.
    + intros Hlow Hcap. exfalso.
      rewrite (Propertyname_no_capital x Hcap), Hlow in E. discriminate.
    + intros Heq. exfalso. apply Hdiff. now symmetry.
Qed.

Lemma getColumnName_escapes_reserved_witness :
  isUnderscore (PascalCase false) = true /\
  getColumnName (mappings (PascalCase false)) "Select" = "select_".
Proof.
  split; [reflexivity|].
  exact (proj1 (getColumnName_escapes_reserved (PascalCase false) "Select" eq_refl)
           eq_refl eq_refl).
Defined.

(** A name that lowercases to ["select"] and does not become ["select_"]. *)
Lemma getColumnName_select_counterexample :
  toLowerCase "seLect" = "select" /\
  getColumnName (mappings (CamelCase false)) "seLect" = "se_lect" /\
  getColumnName (mappings (CamelCase false)) "seLect" <> "select_".
Proof. repeat split; discriminate. Qed.

(** C8.  For a property name [x] made of ASCII letters, with a capital after
    its first character, [getPropertyName (getColumnName x)] is [x] in the
    matching variant: the camel class when [x] starts with a lowercase
    letter, the Pascal class when it starts with a capital.  (The exception
    the claim allows never occurs.) *)
Theorem identifier_round_trip (flag : bool) (x : string) :
  allChars isLetter x = true ->
  anyChar isUpperAZ (slice1 x) = true ->
  (startsWith isLowerAZ x = true ->
   getPropertyName (mappings (CamelCase flag))
     (getColumnName (mappings (CamelCase flag)) x) = x) /\
  (startsWith isUpperAZ x = true ->
   getPropertyName (mappings (PascalCase flag))
     (getColumnName (mappings (PascalCase flag)) x) = x).
Proof.
  intros Hletters _. cbn [mappings getPropertyName getColumnName].
  unfold UnderscoreCqlToCamelCaseMappings.getPropertyName,
    UnderscoreCqlToCamelCaseMappings.getColumnName,
    UnderscoreCqlToPascalCaseMappings.getPropertyName,
    UnderscoreCqlToPascalCaseMappings.getColumnName.
  split; intros Hfirst.
  - rewrite (proj2 (getPropertyName_chars _)).
    now apply (underscore_round_trip false).
  - rewrite (proj1 (getPropertyName_chars _)).
    now apply (underscore_round_trip true).
Qed.

Lemma identifier_round_trip_witness :
  getPropertyName (mappings (CamelCase false))
    (getColumnName (mappings (CamelCase false)) "zipCodeURL") = "zipCodeURL" /\
  getPropertyName (mappings (PascalCase false))
    (getColumnName (mappings (PascalCase false)) "UserId") = "UserId".
Proof.
  split.
  - apply (proj1 (identifier_round_trip false "zipCodeURL" eq_refl eq_refl)).
    reflexivity.
  - apply (proj2 (identifier_round_trip false "UserId" eq_refl eq_refl)).
    reflexivity.
Defined.

(** C10.  In every strategy both identifier conversions send the empty
    string to the empty string. *)
Theorem empty_identifier (s : Strategy) :
  getColumnName (mappings s) "" = "" /\ getPropertyName (mappings s) "" = "".
Proof. destruct s; split; reflexivity. Qed.

(** ** Walkers on leaves *)

(** The body of the walkers, with the tests of the source in their order. *)
Lemma objectToCasing_body (rename : string -> string) (flag : bool) (obj : value) :
  objectToCasing rename flag obj =
  if negb (isObjectTag (typeof obj)) || isNull obj then obj
  else if negb (isArray obj) then
    VObject (fold_left (assignEntry rename flag (objectToCasing rename flag))
                       (ObjectEntries obj) [])
  else
    match obj with
    | VArray elements => VArray (map (objectToCasing rename flag) elements)
    | _ => obj
    end.
Proof. destruct obj; reflexivity. Qed.

(** A value that is no object, or [null], comes back from both walkers of
    every strategy as it is. *)
Lemma objectToCasing_primitive (rename : string -> string) (flag : bool) (v : value) :
  negb (isObjectTag (typeof v)) || isNull v = true ->
  objectToCasing rename flag v = v.
Proof. destruct v; simpl; intros H; try reflexivity; discriminate. Qed.

Lemma objectToTableCasing_primitive (s : Strategy) (v : value) :
  negb (isObjectTag (typeof v)) || isNull v = true ->
  objectToTableCasing (mappings s) v = v.
Proof. destruct s; apply objectToCasing_primitive. Qed.

(** [objectToArray] on [null] and on a value that is no object. *)
Lemma objectToArray_null (s : Strategy) : objectToArray (mappings s) VNull = [].
Proof. destruct s; reflexivity. Qed.

Lemma objectToArray_primitive (s : Strategy) (v : value) :
  isObjectTag (typeof v) = false -> objectToArray (mappings s) v = [v].
Proof. destruct s, v; simpl; intros H; try reflexivity; discriminate. Qed.

(** A [Long] held by a mapping of one key, under the flag: the bodies that
    test the flag store [value.toString()] when it is set and the [Long]
    itself when it is not. *)
Lemma objectToCasing_Long_entry (rename : string -> string) (flag : bool)
    (key : string) (low high : Z) (unsigned : bool) :
  objectToCasing rename flag (VObject [(key, VLong low high unsigned)]) =
  VObject (setProperty (rename key)
             (if flag then VString (decimal (LongValue low high unsigned))
              else VLong low high unsigned) []).
Proof. destruct flag; reflexivity. Qed.

(** C2.  In the camel strategy [objectToTableCasing] sends
    [{ userId: 1, address: { zipCode: "X" } }] to
    [{ user_id: 1, address: { zip_code: "X" } }], and [objectToFixedCasing]
    sends that result back to the first document. *)
Theorem nested_conversion_example (flag : bool) :
  let document :=
    VObject [("userId", VNumber 1); ("address", VObject [("zipCode", VString "X")])] in
  let row :=
    VObject [("user_id", VNumber 1); ("address", VObject [("zip_code", VString "X")])] in
  objectToTableCasing (mappings (CamelCase flag)) document = row /\
  objectToFixedCasing (mappings (CamelCase flag)) row = document /\
  objectToFixedCasing (mappings (CamelCase flag))
    (objectToTableCasing (mappings (CamelCase flag)) document) = document.
Proof. repeat split; reflexivity. Qed.

(** C3 (the code departs from the claim).  With the flag set,
    [objectToTableCasing] of the Pascal class leaves a [Long] of a mapping as
    it is: its first branch stores [value] without testing the flag.  The
    same document in the camel class, and the other direction of the Pascal
    class, give the decimal string. *)
Theorem pascal_objectToTableCasing_keeps_Long :
  objectToTableCasing (mappings (PascalCase true)) (VObject [("Id", VLong 5 0 false)])
    = VObject [("id", VLong 5 0 false)] /\
  objectToTableCasing (mappings (CamelCase true)) (VObject [("id", VLong 5 0 false)])
    = VObject [("id", VString "5")] /\
  objectToFixedCasing (mappings (PascalCase true)) (VObject [("id", VLong 5 0 false)])
    = VObject [("Id", VString "5")] /\
  objectToFixedCasing (mappings (CamelCase true)) (VObject [("id", VLong 5 0 false)])
    = VObject [("id", VString "5")].
Proof. repeat split; reflexivity. Qed.

(** C4 (the code departs from the claim).  At top level, in every strategy,
    [objectToTableCasing] turns a [Date] into an empty object: the first test
    of the body lets through only what is no object, and [null], and a
    [Date] has no entry for the loop. *)
Theorem objectToTableCasing_empties_Date (s : Strategy) (time : Z) :
  objectToTableCasing (mappings s) (VDate time) = VObject [] /\
  objectToTableCasing (mappings s) (VDate time) <> VDate time.
Proof. destruct s; split; try reflexivity; discriminate. Qed.

(** A [Long] at top level becomes a plain object of its three fields, whatever
    the flag. *)
Lemma objectToTableCasing_restructures_Long
    (s : Strategy) (low high : Z) (unsigned : bool) :
  objectToTableCasing (mappings s) (VLong low high unsigned) =
  VObject [("low", VNumber low); ("high", VNumber high); ("unsigned", VBoolean unsigned)].
Proof. destruct s; reflexivity. Qed.

(** C5 (the code departs from the claim).  [objectToArray] hands every value
    whose [typeof] is ["object"] to [objectToTableCasing]: a [Date] of the
    mapping comes out as an empty object, while [null] and the values that
    are no objects come out as they are.  A [Date] given as the argument
    itself has no entry, and gives the empty array. *)
Theorem objectToArray_empties_Date (s : Strategy) (time : Z) :
  objectToArray (mappings s)
    (VObject [("createdAt", VDate time); ("note", VNull); ("count", VNumber 3)]) =
  [VObject []; VNull; VNumber 3] /\
  objectToArray (mappings s) (VDate time) = [].
Proof. destruct s; split; reflexivity. Qed.

(** A [Long] of the mapping comes out as a plain object of its three fields. *)
Lemma objectToArray_restructures_Long (s : Strategy) (low high : Z) (unsigned : bool) :
  objectToArray (mappings s) (VObject [("id", VLong low high unsigned)]) =
  [VObject [("low", VNumber low); ("high", VNumber high); ("unsigned", VBoolean unsigned)]].
Proof. destruct s; reflexivity. Qed.

(** ** Self-referencing documents *)

Module AliasedFacts.
Import Aliased.

(** *** The store under a walk *)

Lemma preserves_refl (st : store) : preserves st st.
Proof. split; [apply Nat.le_refl | reflexivity]. Qed.

Lemma preserves_trans (st1 st2 st3 : store) :
  preserves st1 st2 -> preserves st2 st3 -> preserves st1 st3.
Proof.
  intros [L12 H12] [L23 H23]. split; [lia|].
  intros a Ha. rewrite H23 by lia. now apply H12.
Qed.

Lemma preserves_allocate (st : store) (o : object) : preserves st (st ++ [o])%list.
Proof.
  split.
  - rewrite length_app. simpl. lia.
  - intros a Ha. now apply nth_error_app1.
Qed.

Lemma modify_length (a : address) (f : object -> object) (st : store) :
  List.length (modify a f st) = List.length st.
Proof.
  revert a; induction st as [|o st IH]; intros [|a]; simpl; try reflexivity.
  now rewrite IH.
Qed.

Lemma modify_other (a b : address) (f : object -> object) (st : store) :
  a <> b -> nth_error (modify a f st) b = nth_error st b.
Proof.
  revert a b; induction st as [|o st IH]; intros [|a] [|b] Hab; simpl;
    try reflexivity; try congruence.
  apply IH. congruence.
Qed.

Lemma preserves_modify (base st : store) (n : address) (f : object -> object) :
  List.length base <= n -> preserves base st -> preserves base (modify n f st).
Proof.
  intros Hn [L H]. split.
  - now rewrite modify_length.
  - intros a Ha. rewrite modify_other by lia. now apply H.
Qed.

(** *** The bodies, one step at a time *)

Section Steps.

Variable rename : string -> string.
Variable longToString : bool.
Variable recur : hvalue -> Exec hvalue.

Lemma assignEntry_step (n : address) (key : string) (v : hvalue) (st : store) :
  assignEntry rename longToString recur n (key, v) st =
  if instanceofDate (heldIn st v) || isNull v || instanceofLong (heldIn st v) then
    assign n (rename key)
      (if instanceofLong (heldIn st v) && longToString
       then LongToString (heldIn st v) v else v) st
  else if isObjectTag (typeof v) then
    match recur v st with
    | Normal converted st' => assign n (rename key) converted st'
    | Throw e => Throw e
    end
  else assign n (rename key) v st.
Proof.
  destruct v; try reflexivity.
  unfold assignEntry, objectOf, heldIn, bind, load, ret.
  destruct (nth a st (OPlain [])); reflexivity.
Qed.

Lemma forEach_cons {A : Type} (f : A -> Exec unit) (x : A) (l : list A) (st : store) :
  forEach f (x :: l) st =
  match f x st with
  | Normal _ st' => forEach f l st'
  | Throw e => Throw e
  end.
Proof. reflexivity. Qed.

Lemma mapEach_cons {A B : Type} (f : A -> Exec B) (x : A) (l : list A) (st : store) :
  mapEach f (x :: l) st =
  match f x st with
  | Normal y st' =>
      match mapEach f l st' with
      | Normal ys st'' => Normal (y :: ys) st''
      | Throw e => Throw e
      end
  | Throw e => Throw e
  end.
Proof.
  cbn [mapEach]. unfold bind at 1. destruct (f x st) as [y st'|e]; [|reflexivity].
  unfold bind at 1. destruct (mapEach f l st'); reflexivity.
Qed.

End Steps.

Lemma objectToCasing_step (rename : string -> string) (flag : bool)
    (frames : nat) (a : address) (st : store) :
  objectToCasing rename flag (S frames) (HObject a) st =
  match nth a st (OPlain []) with
  | OArray elements =>
      match mapEach (objectToCasing rename flag frames) elements st with
      | Normal mapped st' => Normal (HObject (List.length st')) (st' ++ [OArray mapped])%list
      | Throw e => Throw e
      end
  | o =>
      match forEach (assignEntry rename flag (objectToCasing rename flag frames)
                       (List.length st))
                    (ObjectEntries o) (st ++ [OPlain []])%list with
      | Normal _ st' => Normal (HObject (List.length st)) st'
      | Throw e => Throw e
      end
  end.
Proof.
  cbn [objectToCasing typeof isObjectTag negb isNull orb].
  unfold bind at 1. unfold objectOf, bind at 1. unfold load, ret at 1.
  destruct (nth a st (OPlain [])); unfold bind, allocate, ret; 
    try (destruct (forEach _ _ _); reflexivity).
  destruct (mapEach _ _ _); reflexivity.
Qed.

Lemma objectToCasing_primitive_step (rename : string -> string) (flag : bool)
    (frames : nat) (v : hvalue) (st : store) :
  negb (isObjectTag (typeof v)) || isNull v = true ->
  objectToCasing rename flag (S frames) v st = Normal v st.
Proof. intros H. cbn [objectToCasing]. rewrite H. reflexivity. Qed.


(** *** What every walk keeps and throws *)

Section Loop.

Variable rename : string -> string.
Variable longToString : bool.
Variable recur : hvalue -> Exec hvalue.
Variable newObject : address.

Lemma assignEntry_preserves (base st st' : store) (entry : string * hvalue) (u : unit) :
  keepsStore recur ->
  List.length base <= newObject ->
  preserves base st ->
  assignEntry rename longToString recur newObject entry st = Normal u st' ->
  preserves base st'.
Proof.
  intros Hkeep Hn Hbase. destruct entry as [key v].
  rewrite assignEntry_step. unfold assign.
  destruct (instanceofDate (heldIn st v) || isNull v || instanceofLong (heldIn st v)).
  - intros H; injection H as _ <-. now apply preserves_modify.
  - destruct (isObjectTag (typeof v)).
    + destruct (recur v st) as [converted st1|e] eqn:Hrec; [|discriminate].
      intros H; injection H as _ <-. apply preserves_modify; [exact Hn|].
      apply (preserves_trans _ st); [exact Hbase | exact (Hkeep _ _ _ _ Hrec)].
    + intros H; injection H as _ <-. now apply preserves_modify.
Qed.

Lemma assignEntry_throws (st : store) (entry : string * hvalue) (e : string) :
  throwsRangeErrorOnly recur ->
  assignEntry rename longToString recur newObject entry st = Throw e ->
  e = "RangeError".
Proof.
  intros Hthrow. destruct entry as [key v].
  rewrite assignEntry_step. unfold assign.
  destruct (instanceofDate (heldIn st v) || isNull v || instanceofLong (heldIn st v));
    [discriminate|].
  destruct (isObjectTag (typeof v)); [|discriminate].
  destruct (recur v st) as [converted st1|e'] eqn:Hrec; [discriminate|].
  intros H; injection H as <-. exact (Hthrow _ _ _ Hrec).
Qed.

Lemma forEach_preserves (base : store) (entries : properties hvalue) :
  keepsStore recur ->
  List.length base <= newObject ->
  forall st st' u,
    preserves base st ->
    forEach (assignEntry rename longToString recur newObject) entries st = Normal u st' ->
    preserves base st'.
Proof.
  intros Hkeep Hn.
  induction entries as [|entry entries IH]; intros st st' u Hbase.
  - intros H; injection H as _ <-. exact Hbase.
  - rewrite forEach_cons.
    destruct (assignEntry _ _ _ _ entry st) as [u1 st1|e] eqn:Hentry; [|discriminate].
    apply IH. exact (assignEntry_preserves base st st1 entry u1 Hkeep Hn Hbase Hentry).
Qed.

Lemma forEach_throws (entries : properties hvalue) :
  throwsRangeErrorOnly recur ->
  forall st e,
    forEach (assignEntry rename longToString recur newObject) entries st = Throw e ->
    e = "RangeError".
Proof.
  intros Hthrow.
  induction entries as [|entry entries IH]; intros st e; [discriminate|].
  rewrite forEach_cons.
  destruct (assignEntry _ _ _ _ entry st) as [u1 st1|e1] eqn:Hentry.
  - apply IH.
  - intros H; injection H as <-. exact (assignEntry_throws st entry e1 Hthrow Hentry).
Qed.

Lemma mapEach_preserves (elements : list hvalue) :
  keepsStore recur ->
  forall st st' mapped,
    mapEach recur elements st = Normal mapped st' -> preserves st st'.
Proof.
  intros Hkeep.
  induction elements as [|v elements IH]; intros st st' mapped.
  - intros H; injection H as _ <-. apply preserves_refl.
  - rewrite mapEach_cons.
    destruct (recur v st) as [r st1|e] eqn:Hrec; [|discriminate].
    destruct (mapEach recur elements st1) as [rs st2|e] eqn:Hrest; [|discriminate].
    intros H; injection H as _ <-.
    apply (preserves_trans _ st1); [exact (Hkeep _ _ _ _ Hrec) | exact (IH _ _ _ Hrest)].
Qed.

Lemma mapEach_throws (elements : list hvalue) :
  throwsRangeErrorOnly recur ->
  forall st e, mapEach recur elements st = Throw e -> e = "RangeError".
Proof.
  intros Hthrow.
  induction elements as [|v elements IH]; intros st e; [discriminate|].
  rewrite mapEach_cons.
  destruct (recur v st) as [r st1|e1] eqn:Hrec.
  - destruct (mapEach recur elements st1) as [rs st2|e2] eqn:Hrest; [discriminate|].
    intros H; injection H as <-. exact (IH _ _ Hrest).
  - intros H; injection H as <-. exact (Hthrow _ _ _ Hrec).
Qed.

End Loop.

Lemma typeof_cases (v : hvalue) :
  negb (isObjectTag (typeof v)) || isNull v = true \/ exists a, v = HObject a.
Proof. destruct v; simpl; auto. right. now exists a. Qed.

Lemma objectToCasing_keepsStore (rename : string -> string) (flag : bool) (frames : nat) :
  keepsStore (objectToCasing rename flag frames).
Proof.
  induction frames as [|frames IH]; intros v st r st'; [discriminate|].
  destruct (typeof_cases v) as [Hprim | [a ->]].
  - rewrite objectToCasing_primitive_step by exact Hprim.
    intros H; injection H as _ <-. apply preserves_refl.
  - rewrite objectToCasing_step.
    assert (Hloop : forall o,
      match forEach (assignEntry rename flag (objectToCasing rename flag frames)
                       (List.length st))
                    (ObjectEntries o) (st ++ [OPlain []])%list with
      | Normal _ st1 => Normal (HObject (List.length st)) st1
      | Throw e => Throw e
      end = Normal r st' -> preserves st st').
    { intros o.
      destruct (forEach _ _ _) as [u st1|e] eqn:Hfor; [|discriminate].
      intros H; injection H as _ <-.
      apply (forEach_preserves rename flag _ _ st _ IH (Nat.le_refl _) _ _ _
               (preserves_allocate st _) Hfor). }
    destruct (nth a st (OPlain [])) as [time|low high unsigned|elements|props];
      try apply Hloop.
    destruct (mapEach _ elements st) as [mapped st1|e] eqn:Hmap; [|discriminate].
    intros H; injection H as _ <-.
    apply (preserves_trans _ st1);
      [exact (mapEach_preserves _ elements IH _ _ _ Hmap) | apply preserves_allocate].
Qed.

Lemma objectToCasing_throws (rename : string -> string) (flag : bool) (frames : nat) :
  throwsRangeErrorOnly (objectToCasing rename flag frames).
Proof.
  induction frames as [|frames IH]; intros v st e.
  - intros H; injection H as <-. reflexivity.
  - destruct (typeof_cases v) as [Hprim | [a ->]].
    + rewrite objectToCasing_primitive_step by exact Hprim. discriminate.
    + rewrite objectToCasing_step.
      assert (Hloop : forall o,
        match forEach (assignEntry rename flag (objectToCasing rename flag frames)
                         (List.length st))
                      (ObjectEntries o) (st ++ [OPlain []])%list with
        | Normal _ st1 => Normal (HObject (List.length st)) st1
        | Throw e => Throw e
        end = Throw e -> e = "RangeError").
      { intros o.
        destruct (forEach _ _ _) as [u st1|e1] eqn:Hfor; [discriminate|].
        intros H; injection H as <-.
        exact (forEach_throws rename flag _ _ _ IH _ _ Hfor). }
      destruct (nth a st (OPlain [])) as [time|low high unsigned|elements|props];
        try apply Hloop.
      destruct (mapEach _ elements st) as [mapped st1|e1] eqn:Hmap; [discriminate|].
      intros H; injection H as <-.
      exact (mapEach_throws _ elements IH _ _ Hmap).
Qed.

(** *** Endless families *)

Lemma endless_preserved (st st' : store) (family : list address) :
  preserves st st' -> endless st family -> endless st' family.
Proof.
  intros [_ Hsame] Hendless a Ha.
  destruct (Hendless a Ha) as [b [Hb Hholds]].
  exists b. split; [exact Hb|].
  unfold holds in *.
  destruct (nth_error st a) as [o|] eqn:Hat; [|contradiction].
  rewrite Hsame, Hat; [exact Hholds|].
  apply nth_error_Some. congruence.
Qed.

(** An object of an endless family is neither a [Date] nor a [Long]. *)
Lemma endless_not_leaf (st : store) (family : list address) (b : address) :
  endless st family -> In b family ->
  instanceofDate (heldIn st (HObject b)) || isNull (HObject b)
    || instanceofLong (heldIn st (HObject b)) = false.
Proof.
  intros Hendless Hb. destruct (Hendless b Hb) as [c [_ Hholds]].
  unfold holds in Hholds. cbn [heldIn].
  destruct (nth_error st b) as [o|] eqn:Hat; [|contradiction].
  rewrite (nth_error_nth _ _ (OPlain []) Hat).
  destruct o; [contradiction | contradiction | reflexivity | reflexivity].
Qed.

Section Descent.

Variable rename : string -> string.
Variable longToString : bool.
Variable family : list address.
Variable frames : nat.

(** The walk with [frames] frames uses them up on every object of the family. *)
Hypothesis exhausted :
  forall st, endless st family ->
  forall a, In a family ->
  objectToCasing rename longToString frames (HObject a) st = Throw "RangeError".

Lemma forEach_descends (base : store) (key : string) (b : address) :
  endless base family -> In b family ->
  forall (entries : properties hvalue) (st : store),
    preserves base st ->
    In (key, HObject b) entries ->
    forEach (assignEntry rename longToString
               (objectToCasing rename longToString frames) (List.length base))
            entries st = Throw "RangeError".
Proof.
  intros Hendless Hb.
  induction entries as [|entry entries IH]; intros st Hst Hin; [contradiction|].
  rewrite forEach_cons.
  destruct (assignEntry _ _ _ _ entry st) as [u st1|e] eqn:Hentry.
  - destruct Hin as [-> | Hin].
    + rewrite assignEntry_step in Hentry.
      rewrite (endless_not_leaf st family b (endless_preserved _ _ _ Hst Hendless) Hb)
        in Hentry.
      cbn [typeof isObjectTag] in Hentry.
      rewrite (exhausted st (endless_preserved _ _ _ Hst Hendless) b Hb) in Hentry.
      discriminate.
    + apply IH; [|exact Hin].
      exact (assignEntry_preserves rename longToString _ _ base st st1 entry u
               (objectToCasing_keepsStore rename longToString frames)
               (Nat.le_refl _) Hst Hentry).
  - f_equal.
    exact (assignEntry_throws rename longToString _ _ st entry e
             (objectToCasing_throws rename longToString frames) Hentry).
Qed.

Lemma mapEach_descends (base : store) (b : address) :
  endless base family -> In b family ->
  forall (elements : list hvalue) (st : store),
    preserves base st ->
    In (HObject b) elements ->
    mapEach (objectToCasing rename longToString frames) elements st = Throw "RangeError".
Proof.
  intros Hendless Hb.
  induction elements as [|v elements IH]; intros st Hst Hin; [contradiction|].
  rewrite mapEach_cons.
  destruct (objectToCasing rename longToString frames v st) as [r st1|e] eqn:Hcall.
  - destruct Hin as [-> | Hin].
    + rewrite (exhausted st (endless_preserved _ _ _ Hst Hendless) b Hb) in Hcall.
      discriminate.
    + rewrite (IH st1); [reflexivity | | exact Hin].
      apply (preserves_trans _ st); [exact Hst|].
      exact (objectToCasing_keepsStore rename longToString frames _ _ _ _ Hcall).
  - f_equal. exact (objectToCasing_throws rename longToString frames _ _ _ Hcall).
Qed.

End Descent.

(** A walk that starts in an endless family ends when no frame is left, and
    not before. *)
Lemma endless_exhausts_frames (rename : string -> string) (flag : bool)
    (family : list address) (frames : nat) :
  forall st, endless st family ->
  forall a, In a family ->
  objectToCasing rename flag frames (HObject a) st = Throw "RangeError".
Proof.
  induction frames as [|frames IH]; intros st Hendless a Ha; [reflexivity|].
  rewrite objectToCasing_step.
  destruct (Hendless a Ha) as [b [Hb Hholds]].
  unfold holds in Hholds.
  destruct (nth_error st a) as [o|] eqn:Hat; [|contradiction].
  rewrite (nth_error_nth _ _ (OPlain []) Hat).
  destruct o as [time|low high unsigned|elements|props]; try contradiction.
  - rewrite (mapEach_descends rename flag family frames IH st b Hendless Hb
               elements st (preserves_refl st) Hholds).
    reflexivity.
  - destruct Hholds as [key Hin].
    rewrite (forEach_descends rename flag family frames IH st key b Hendless Hb
               props _ (preserves_allocate st _) Hin).
    reflexivity.
Qed.

(** *** Cyclic documents *)

Lemma selfReferencing_endless (key : string) : endless (selfReferencing key) [0].
Proof.
  intros a [<- | []]. exists 0. split; [left; reflexivity|].
  exists key. left. reflexivity.
Qed.

Lemma selfContaining_endless : endless selfContaining [0].
Proof.
  intros a [<- | []]. exists 0. split; [left; reflexivity|].
  left. reflexivity.
Qed.

Lemma mutualReference_endless : endless mutualReference [0; 1].
Proof.
  intros a [<- | [<- | []]].
  - exists 1. split; [right; left; reflexivity|].
    exists "peers". right. left. reflexivity.
  - exists 0. split; [left; reflexivity|].
    right. left. reflexivity.
Qed.

Lemma objectToTableCasing_unfold (s : Strategy) :
  exists rename flag, objectToTableCasing s = objectToCasing rename flag.
Proof. destruct s; eexists; eexists; reflexivity. Qed.

(** C9, amended.  No walker looks for a cycle or bounds its depth.  In every
    strategy, [objectToTableCasing] on a structure that refers to itself (an
    object of a family in which every object holds another one of the
    family) calls itself until no frame of the call stack is left, whatever
    their number, and ends with the [RangeError] of the host. *)
Theorem cyclic_structure_ends_in_RangeError
    (s : Strategy) (family : list address) (st : store) (frames : nat) (a : address) :
  endless st family ->
  In a family ->
  objectToTableCasing s frames (HObject a) st = Throw "RangeError".
Proof.
  destruct (objectToTableCasing_unfold s) as [rename [flag ->]].
  intros Hendless Ha. now apply (endless_exhausts_frames rename flag family).
Qed.

Lemma cyclic_structure_ends_in_RangeError_witness :
  objectToTableCasing (CamelCase true) 4096 (HObject 0) (selfReferencing "self")
    = Throw "RangeError" /\
  objectToTableCasing (PascalCase false) 4096 (HObject 1) mutualReference
    = Throw "RangeError".
Proof.
  split.
  - apply (cyclic_structure_ends_in_RangeError (CamelCase true) [0]
             (selfReferencing "self") 4096 0 (selfReferencing_endless "self")).
    left. reflexivity.
  - apply (cyclic_structure_ends_in_RangeError (PascalCase false) [0; 1]
             mutualReference 4096 1 mutualReference_endless).
    right. left. reflexivity.
Defined.

(** On [const o = {}; o.self = o] every number of frames is used up, and none
    makes the call end with a [StructuralError]. *)
Lemma self_reference_no_StructuralError :
  (forall frames,
      objectToTableCasing (CamelCase false) frames (HObject 0) (selfReferencing "self")
      = Throw "RangeError") /\
  ~ (exists frames,
        objectToTableCasing (CamelCase false) frames (HObject 0) (selfReferencing "self")
        = Throw "StructuralError").
Proof.
  assert (H : forall frames,
             objectToTableCasing (CamelCase false) frames (HObject 0) (selfReferencing "self")
             = Throw "RangeError").
  { intros frames.
    apply (endless_exhausts_frames _ _ [0] frames _ (selfReferencing_endless "self")).
    left. reflexivity. }
  split; [exact H|].
  intros [frames Hframes]. rewrite H in Hframes. discriminate.
Qed.

End AliasedFacts.

(** ** The walk over the store and the walk over the tree *)

Module Agreement.
Import AliasedFacts.

(** *** Reading properties back *)

Section Reading.

Variable read : Aliased.hvalue -> option value.

Lemma readProperties_cons_inv (k : string) (x : Aliased.hvalue)
    (ps : properties Aliased.hvalue) (vs : properties value) :
  Aliased.readProperties read ((k, x) :: ps) = Some vs ->
  exists t ts, read x = Some t /\ Aliased.readProperties read ps = Some ts /\
               vs = (k, t) :: ts.
Proof.
  cbn [Aliased.readProperties].
  destruct (read x) as [t|]; [|discriminate].
  destruct (Aliased.readProperties read ps) as [ts|]; [|discriminate].
  intros H; injection H as <-. now exists t, ts.
Qed.

Lemma readProperties_cons (k : string) (x : Aliased.hvalue) (t : value)
    (ps : properties Aliased.hvalue) (ts : properties value) :
  read x = Some t -> Aliased.readProperties read ps = Some ts ->
  Aliased.readProperties read ((k, x) :: ps) = Some ((k, t) :: ts).
Proof. intros Hx Hps. cbn [Aliased.readProperties]. now rewrite Hx, Hps. Qed.

Lemma readProperties_hasOwn (key : string) :
  forall ps vs, Aliased.readProperties read ps = Some vs ->
                hasOwnProperty key vs = hasOwnProperty key ps.
Proof.
  induction ps as [|[k x] ps IH]; intros vs H.
  - injection H as <-. reflexivity.
  - apply readProperties_cons_inv in H as [t [ts [_ [Hps ->]]]].
    unfold hasOwnProperty in *. cbn [existsb fst]. now rewrite (IH ts Hps).
Qed.

Lemma readProperties_replace (key : string) (x : Aliased.hvalue) (t : value) :
  read x = Some t ->
  forall ps vs, Aliased.readProperties read ps = Some vs ->
    Aliased.readProperties read (replaceProperty key x ps) = Some (replaceProperty key t vs).
Proof.
  intros Hx. induction ps as [|[k y] ps IH]; intros vs H.
  - injection H as <-. reflexivity.
  - apply readProperties_cons_inv in H as [u [ts [Hy [Hps ->]]]].
    cbn [replaceProperty]. destruct (String.eqb k key).
    + now apply readProperties_cons.
    + apply readProperties_cons; [exact Hy | now apply IH].
Qed.

Lemma readProperties_insert (n : N) (key : string) (x : Aliased.hvalue) (t : value) :
  read x = Some t ->
  forall ps vs, Aliased.readProperties read ps = Some vs ->
    Aliased.readProperties read (insertIndexProperty n key x ps)
    = Some (insertIndexProperty n key t vs).
Proof.
  intros Hx. induction ps as [|[k y] ps IH]; intros vs H.
  - injection H as <-. cbn. now rewrite Hx.
  - pose proof H as H0.
    apply readProperties_cons_inv in H as [u [ts [Hy [Hps ->]]]].
    cbn [insertIndexProperty]. destruct (arrayIndex k) as [m|].
    + destruct (N.ltb m n).
      * apply readProperties_cons; [exact Hy | now apply IH].
      * now apply readProperties_cons.
    + now apply readProperties_cons.
Qed.

Lemma readProperties_last (key : string) (x : Aliased.hvalue) (t : value) :
  read x = Some t ->
  forall ps vs, Aliased.readProperties read ps = Some vs ->
    Aliased.readProperties read (ps ++ [(key, x)])%list = Some (vs ++ [(key, t)])%list.
Proof.
  intros Hx. induction ps as [|[k y] ps IH]; intros vs H.
  - injection H as <-. cbn. now rewrite Hx.
  - apply readProperties_cons_inv in H as [u [ts [Hy [Hps ->]]]].
    cbn [app]. apply readProperties_cons; [exact Hy | now apply IH].
Qed.

(** [newObject[key] = x] reads as the assignment of what [x] reads as. *)
Lemma readProperties_set (key : string) (x : Aliased.hvalue) (t : value)
    (ps : properties Aliased.hvalue) (vs : properties value) :
  read x = Some t ->
  Aliased.readProperties read ps = Some vs ->
  Aliased.readProperties read (setProperty key x ps) = Some (setProperty key t vs).
Proof.
  intros Hx Hps. unfold setProperty.
  destruct (String.eqb key "__proto__"); [exact Hps|].
  rewrite (readProperties_hasOwn key ps vs Hps).
  destruct (hasOwnProperty key ps).
  - now apply readProperties_replace.
  - destruct (arrayIndex key).
    + now apply readProperties_insert.
    + now apply readProperties_last.
Qed.

End Reading.

Lemma readList_ext (read1 read2 : Aliased.hvalue -> option value) :
  (forall x t, read1 x = Some t -> read2 x = Some t) ->
  forall l ts, Aliased.readList read1 l = Some ts -> Aliased.readList read2 l = Some ts.
Proof.
  intros Hext. induction l as [|x l IH]; intros ts; [trivial|].
  cbn [Aliased.readList].
  destruct (read1 x) as [t|] eqn:Hx; [|discriminate].
  destruct (Aliased.readList read1 l) as [ts'|]; [|discriminate].
  intros H. now rewrite (Hext x t Hx), (IH ts' eq_refl).
Qed.

Lemma readProperties_ext (read1 read2 : Aliased.hvalue -> option value) :
  (forall x t, read1 x = Some t -> read2 x = Some t) ->
  forall l ts, Aliased.readProperties read1 l = Some ts ->
               Aliased.readProperties read2 l = Some ts.
Proof.
  intros Hext. induction l as [|[k x] l IH]; intros ts; [trivial|].
  cbn [Aliased.readProperties].
  destruct (read1 x) as [t|] eqn:Hx; [|discriminate].
  destruct (Aliased.readProperties read1 l) as [ts'|]; [|discriminate].
  intros H. now rewrite (Hext x t Hx), (IH ts' eq_refl).
Qed.

(** What a value reads as depends on the objects of the store it was read in. *)
Lemma readBack_stable (fuel : nat) (base st : Aliased.store) :
  (forall a, a < List.length base -> nth_error st a = nth_error base a) ->
  forall v t, Aliased.readBack fuel base v = Some t -> Aliased.readBack fuel st v = Some t.
Proof.
  intros Hsame. induction fuel as [|fuel IH]; intros v t; destruct v; trivial.
  cbn [Aliased.readBack].
  destruct (nth_error base a) as [o|] eqn:Hat; [|discriminate].
  rewrite Hsame, Hat by (apply nth_error_Some; congruence).
  destruct o as [time|low high unsigned|elements|props]; trivial.
  - destruct (Aliased.readList _ elements) as [ts|] eqn:Hl; [|discriminate].
    now rewrite (readList_ext _ _ IH _ _ Hl).
  - destruct (Aliased.readProperties _ props) as [ts|] eqn:Hl; [|discriminate].
    now rewrite (readProperties_ext _ _ IH _ _ Hl).
Qed.

(** *** The tests of the loop, on a value and on what it reads as *)

Lemma class_agrees (fuel : nat) (base st : Aliased.store) (x : Aliased.hvalue) (t : value) :
  Aliased.preserves base st ->
  Aliased.readBack fuel base x = Some t ->
  Aliased.instanceofDate (Aliased.heldIn st x) = instanceofDate t /\
  Aliased.isNull x = isNull t /\
  Aliased.instanceofLong (Aliased.heldIn st x) = instanceofLong t /\
  Aliased.typeof x = typeof t /\
  (instanceofLong t = true ->
   forall fuel' st', Aliased.readBack fuel' st' (Aliased.LongToString (Aliased.heldIn st x) x)
                     = Some (LongToString t)).
Proof.
  intros [_ Hsame] Hread.
  destruct x; try (destruct fuel; injection Hread as <-; repeat split; discriminate).
  destruct fuel as [|fuel]; [discriminate|].
  cbn [Aliased.readBack] in Hread. cbn [Aliased.heldIn].
  destruct (nth_error base a) as [o|] eqn:Hat; [|discriminate].
  assert (Hst : nth_error st a = Some o)
    by (rewrite Hsame; [exact Hat | apply nth_error_Some; congruence]).
  rewrite (nth_error_nth _ _ (Aliased.OPlain []) Hst).
  destruct o as [time|low high unsigned|elements|props].
  - injection Hread as <-. repeat split; discriminate.
  - injection Hread as <-. repeat split. intros _ fuel' st'. destruct fuel'; reflexivity.
  - destruct (Aliased.readList _ elements); [|discriminate].
    injection Hread as <-. repeat split; discriminate.
  - destruct (Aliased.readProperties _ props); [|discriminate].
    injection Hread as <-. repeat split; discriminate.
Qed.

Lemma modify_same (n : Aliased.address) (f : Aliased.object -> Aliased.object)
    (st : Aliased.store) (o : Aliased.object) :
  nth_error st n = Some o -> nth_error (Aliased.modify n f st) n = Some (f o).
Proof.
  revert n; induction st as [|o' st IH]; intros [|n]; simpl; try discriminate.
  - intros H; injection H as ->. reflexivity.
  - apply IH.
Qed.

Lemma assign_normal (n : Aliased.address) (key : string) (x : Aliased.hvalue)
    (st : Aliased.store) :
  Aliased.assign n key x st =
  Aliased.Normal tt
    (Aliased.modify n
       (fun o => match o with
                 | Aliased.OPlain props => Aliased.OPlain (setProperty key x props)
                 | _ => o
                 end) st).
Proof. reflexivity. Qed.

(** *** One assignment of the loop *)

Lemma accumulates_assign (fuel : nat) (base : Aliased.store) (n : Aliased.address)
    (st st1 : Aliased.store) (acc : properties value)
    (key : string) (x : Aliased.hvalue) (t : value) (u : unit) :
  List.length base <= n ->
  Aliased.accumulates fuel base n st acc ->
  Aliased.preserves st st1 ->
  (forall st'',
      Aliased.agrees (List.length base) (List.length st) (List.length st1) st1 st'' ->
      Aliased.readBack fuel st'' x = Some t) ->
  exists st',
    Aliased.assign n key x st1 = Aliased.Normal u st' /\
    Aliased.accumulates fuel base n st' (setProperty key t acc).
Proof.
  intros Hn [Hbase [Hlen [props [Hat Hprops]]]] Hkeep Hx.
  rewrite assign_normal. destruct u. eexists. split; [reflexivity|].
  pose proof Hkeep as [Hle Hsame]. pose proof Hbase as [Hble _].
  split; [|split].
  - apply preserves_modify; [exact Hn|].
    exact (preserves_trans _ _ _ Hbase Hkeep).
  - rewrite modify_length. lia.
  - exists (setProperty key x props). split.
    + rewrite (modify_same n _ st1 (Aliased.OPlain props)); [reflexivity|].
      rewrite Hsame by exact Hlen. exact Hat.
    + intros st'' Hag. rewrite modify_length in Hag.
      assert (Hother : forall a, a < List.length base \/ (S n <= a /\ a < List.length st1) ->
                                 nth_error st'' a = nth_error st1 a).
      { intros a Ha. rewrite (Hag a Ha). apply modify_other. lia. }
      apply readProperties_set.
      * apply Hx. intros a Ha. apply Hother. lia.
      * apply Hprops. intros a Ha. rewrite Hother by lia. apply Hsame. lia.
Qed.

Section Loop.

Variable rename : string -> string.
Variable flag : bool.
Variable fuel frames : nat.
Variable base : Aliased.store.
Variable n : Aliased.address.

(** The calls of the loop return what the walk over the tree returns. *)
Hypothesis calls :
  forall x t, Aliased.readBack fuel base x = Some t ->
  forall st, Aliased.preserves base st ->
  Aliased.returnsTree fuel base st
    (Aliased.objectToCasing rename flag frames x st) (objectToCasing rename flag t).

Hypothesis fresh : List.length base <= n.

Lemma read_in_later_store (st st'' : Aliased.store) (lo hi : nat)
    (x : Aliased.hvalue) (t : value) :
  Aliased.preserves base st ->
  Aliased.readBack fuel base x = Some t ->
  Aliased.agrees (List.length base) lo hi st st'' ->
  Aliased.readBack fuel st'' x = Some t.
Proof.
  intros [_ Hsame] Hread Hag.
  apply (readBack_stable fuel base st''); [|exact Hread].
  intros a Ha. rewrite (Hag a (or_introl Ha)). now apply Hsame.
Qed.

Lemma assignEntry_agrees (key : string) (x : Aliased.hvalue) (t : value)
    (st : Aliased.store) (acc : properties value) :
  Aliased.readBack fuel base x = Some t ->
  Aliased.accumulates fuel base n st acc ->
  exists st',
    Aliased.assignEntry rename flag (Aliased.objectToCasing rename flag frames) n (key, x) st
      = Aliased.Normal tt st' /\
    Aliased.accumulates fuel base n st'
      (assignEntry rename flag (objectToCasing rename flag) acc (key, t)).
Proof.
  intros Hread Hacc. pose proof Hacc as [Hbase _].
  rewrite assignEntry_step. cbn [assignEntry].
  destruct (class_agrees fuel base st x t Hbase Hread)
    as [HDate [HNull [HLong [Htype HtoString]]]].
  rewrite HDate, HNull, HLong, Htype.
  destruct (instanceofDate t || isNull t || instanceofLong t).
  - apply (accumulates_assign fuel base n st st acc); auto using preserves_refl.
    intros st'' Hag.
    destruct (instanceofLong t) eqn:Hl; cbn [andb]; [destruct flag|].
    + now apply HtoString.
    + exact (read_in_later_store st st'' _ _ x t Hbase Hread Hag).
    + exact (read_in_later_store st st'' _ _ x t Hbase Hread Hag).
  - destruct (isObjectTag (typeof t)).
    + destruct (calls x t Hread st Hbase) as [r [st1 [Hcall Hr]]].
      rewrite Hcall.
      apply (accumulates_assign fuel base n st st1 acc); auto.
      exact (objectToCasing_keepsStore rename flag frames _ _ _ _ Hcall).
    + apply (accumulates_assign fuel base n st st acc); auto using preserves_refl.
      intros st'' Hag.
      exact (read_in_later_store st st'' _ _ x t Hbase Hread Hag).
Qed.

Lemma forEach_agrees :
  forall (entries : properties Aliased.hvalue) (tentries : properties value),
    Aliased.readProperties (Aliased.readBack fuel base) entries = Some tentries ->
    forall st acc,
      Aliased.accumulates fuel base n st acc ->
      exists st',
        Aliased.forEach
          (Aliased.assignEntry rename flag (Aliased.objectToCasing rename flag frames) n)
          entries st = Aliased.Normal tt st' /\
        Aliased.accumulates fuel base n st'
          (fold_left (assignEntry rename flag (objectToCasing rename flag)) tentries acc).
Proof.
  induction entries as [|[key x] entries IH]; intros tentries Hread st acc Hacc.
  - injection Hread as <-. exists st. split; [reflexivity | exact Hacc].
  - apply readProperties_cons_inv in Hread as [t [ts [Hx [Hrest ->]]]].
    rewrite forEach_cons.
    destruct (assignEntry_agrees key x t st acc Hx Hacc) as [st1 [Hstep Hacc1]].
    rewrite Hstep. cbn [fold_left]. now apply IH.
Qed.

Lemma mapEach_agrees :
  forall (elements : list Aliased.hvalue) (ts : list value),
    Aliased.readList (Aliased.readBack fuel base) elements = Some ts ->
    forall st,
      Aliased.preserves base st ->
      exists mapped st',
        Aliased.mapEach (Aliased.objectToCasing rename flag frames) elements st
          = Aliased.Normal mapped st' /\
        Aliased.preserves st st' /\
        forall st'',
          Aliased.agrees (List.length base) (List.length st) (List.length st') st' st'' ->
          Aliased.readList (Aliased.readBack fuel st'') mapped
          = Some (map (objectToCasing rename flag) ts).
Proof.
  induction elements as [|x elements IH]; intros ts Hread st Hbase.
  - injection Hread as <-. exists [], st.
    split; [reflexivity|]. split; [apply preserves_refl | reflexivity].
  - cbn [Aliased.readList] in Hread.
    destruct (Aliased.readBack fuel base x) as [t|] eqn:Hx; [|discriminate].
    destruct (Aliased.readList _ elements) as [ts'|] eqn:Hrest; [|discriminate].
    injection Hread as <-.
    rewrite mapEach_cons.
    destruct (calls x t Hx st Hbase) as [r [st1 [Hcall Hr]]]. rewrite Hcall.
    pose proof (objectToCasing_keepsStore rename flag frames _ _ _ _ Hcall) as Hkeep1.
    destruct (IH ts' eq_refl st1 (preserves_trans _ _ _ Hbase Hkeep1))
      as [mapped [st2 [Hmap [Hkeep2 Hread2]]]].
    rewrite Hmap. exists (r :: mapped), st2.
    split; [reflexivity|]. split; [exact (preserves_trans _ _ _ Hkeep1 Hkeep2)|].
    intros st'' Hag. cbn [Aliased.readList map].
    destruct Hkeep1 as [Hle1 Hsame1]. destruct Hkeep2 as [Hle2 Hsame2].
    rewrite Hr, Hread2; [reflexivity | |].
    + intros a Ha. apply Hag. lia.
    + intros a Ha. rewrite Hag by lia. apply Hsame2.
      destruct Hbase as [Hble _]. lia.
Qed.

End Loop.

(** *** The walk *)

Lemma accumulates_start (fuel : nat) (base st : Aliased.store) :
  Aliased.preserves base st ->
  Aliased.accumulates fuel base (List.length st) (st ++ [Aliased.OPlain []])%list [].
Proof.
  intros Hbase. split; [|split].
  - exact (preserves_trans _ _ _ Hbase (preserves_allocate st _)).
  - rewrite length_app. simpl. lia.
  - exists []. split; [|reflexivity].
    rewrite nth_error_app2, Nat.sub_diag by apply Nat.le_refl. reflexivity.
Qed.

Lemma accumulates_result (fuel : nat) (base st st' : Aliased.store)
    (acc : properties value) :
  Aliased.accumulates fuel base (List.length st) st' acc ->
  forall st'',
    Aliased.agrees (List.length base) (List.length st) (List.length st') st' st'' ->
    Aliased.readBack (S fuel) st'' (Aliased.HObject (List.length st)) = Some (VObject acc).
Proof.
  intros [_ [Hlen [props [Hat Hprops]]]] st'' Hag.
  cbn [Aliased.readBack]. rewrite Hag, Hat by lia.
  rewrite Hprops; [reflexivity|].
  intros a Ha. apply Hag. lia.
Qed.

Lemma readBack_LongEntries (fuel : nat) (st : Aliased.store) (low high : Z) (unsigned : bool) :
  Aliased.readProperties (Aliased.readBack fuel st)
    (Aliased.ObjectEntries (Aliased.OLong low high unsigned))
  = Some (LongEntries low high unsigned).
Proof. destruct fuel; reflexivity. Qed.

(** On a value that reads as a tree, the walk over the store, with more
    frames than the tree is deep, returns a value that reads as the result of
    the walk over the tree. *)
Lemma walk_returnsTree (rename : string -> string) (flag : bool) :
  forall fuel base x t,
    Aliased.readBack fuel base x = Some t ->
    forall frames st,
      fuel < frames ->
      Aliased.preserves base st ->
      Aliased.returnsTree fuel base st
        (Aliased.objectToCasing rename flag frames x st) (objectToCasing rename flag t).
Proof.
  induction fuel as [|fuel IH]; intros base x t Hread frames st Hframes Hbase;
    (destruct frames as [|frames]; [lia|]);
    destruct x;
    try (cbn in Hread; injection Hread as <-; eexists; exists st;
         split; [reflexivity | intros; reflexivity]).
  - discriminate.
  - cbn [Aliased.readBack] in Hread.
    destruct (nth_error base a) as [o|] eqn:Hat; [|discriminate].
    assert (Hst : nth_error st a = Some o).
    { destruct Hbase as [_ Hsame]. rewrite Hsame; [exact Hat|].
      apply nth_error_Some. congruence. }
    rewrite objectToCasing_step, (nth_error_nth _ _ (Aliased.OPlain []) Hst).
    assert (Hcalls : forall y u, Aliased.readBack fuel base y = Some u ->
              forall st0, Aliased.preserves base st0 ->
              Aliased.returnsTree fuel base st0
                (Aliased.objectToCasing rename flag frames y st0)
                (objectToCasing rename flag u)).
    { intros y u Hy st0 Hst0. apply IH; [exact Hy | lia | exact Hst0]. }
    assert (Hfresh : List.length base <= List.length st) by apply Hbase.
    assert (Hloop : forall entries tentries,
              Aliased.readProperties (Aliased.readBack fuel base) entries = Some tentries ->
              Aliased.returnsTree (S fuel) base st
                match Aliased.forEach
                        (Aliased.assignEntry rename flag
                           (Aliased.objectToCasing rename flag frames) (List.length st))
                        entries (st ++ [Aliased.OPlain []])%list with
                | Aliased.Normal _ st' => Aliased.Normal (Aliased.HObject (List.length st)) st'
                | Aliased.Throw e => Aliased.Throw e
                end
                (VObject (fold_left (assignEntry rename flag (objectToCasing rename flag))
                            tentries []))).
    { intros entries tentries Hentries.
      destruct (forEach_agrees rename flag fuel frames base (List.length st) Hcalls Hfresh
                  entries tentries Hentries _ [] (accumulates_start fuel base st Hbase))
        as [st' [Hfor Hacc]].
      rewrite Hfor. exists (Aliased.HObject (List.length st)), st'.
      split; [reflexivity|]. exact (accumulates_result fuel base st st' _ Hacc). }
    destruct o as [time|low high unsigned|elements|props].
    + injection Hread as <-. exact (Hloop [] [] eq_refl).
    + injection Hread as <-.
      exact (Hloop _ _ (readBack_LongEntries fuel base low high unsigned)).
    + destruct (Aliased.readList _ elements) as [ts|] eqn:Hl; [|discriminate].
      injection Hread as <-.
      destruct (mapEach_agrees rename flag fuel frames base (List.length st) Hcalls Hfresh
                  elements ts Hl st Hbase)
        as [mapped [st' [Hmap [Hkeep Hmapped]]]].
      rewrite Hmap. eexists _, _. split; [reflexivity|].
      intros st'' Hag. rewrite length_app in Hag. cbn [List.length] in Hag.
      cbn [Aliased.readBack objectToCasing].
      destruct Hkeep as [Hle _].
      rewrite Hag by lia.
      rewrite nth_error_app2, Nat.sub_diag by apply Nat.le_refl. cbn [nth_error].
      rewrite Hmapped; [reflexivity|].
      intros b Hb. rewrite Hag by lia. apply nth_error_app1. lia.
    + destruct (Aliased.readProperties _ props) as [tprops|] eqn:Hl; [|discriminate].
      injection Hread as <-. exact (Hloop props tprops Hl).
Qed.

(** X20.  For a document without cycles the two embeddings give one result:
    the walk over the store returns, and what it returns reads as the result
    of the walk over the tree. *)
Theorem store_walk_is_tree_walk (s : Strategy) (fuel frames : nat)
    (st : Aliased.store) (x : Aliased.hvalue) (t : value) :
  Aliased.readBack fuel st x = Some t ->
  fuel < frames ->
  exists r st',
    Aliased.objectToTableCasing s frames x st = Aliased.Normal r st' /\
    Aliased.readBack fuel st' r = Some (objectToTableCasing (mappings s) t).
Proof.
  intros Hread Hframes.
  assert (H : forall rename flag,
            exists r st',
              Aliased.objectToCasing rename flag frames x st = Aliased.Normal r st' /\
              Aliased.readBack fuel st' r = Some (objectToCasing rename flag t)).
  { intros rename flag.
    destruct (walk_returnsTree rename flag fuel st x t Hread frames st Hframes
                (preserves_refl st)) as [r [st' [Hcall Hr]]].
    exists r, st'. split; [exact Hcall|]. apply Hr. intros a _. reflexivity. }
  destruct s; apply H.
Qed.

End Agreement.

(** * Further properties *)

(** ** Identifiers *)

Lemma anyChar_cons (p : ascii -> bool) (c : ascii) (s : string) :
  anyChar p (String c s) = p c || anyChar p s.
Proof. reflexivity. Qed.

Lemma anyChar_app (p : ascii -> bool) (a b : string) :
  anyChar p (a ++ b) = anyChar p a || anyChar p b.
Proof.
  induction a as [|c a IH]; [reflexivity|].
  cbn [append]. rewrite !anyChar_cons, IH. apply orb_assoc.
Qed.

Lemma charToLower_not_upper (c : ascii) : isUpperAZ (charToLower c) = false.
Proof. all_ascii c. Qed.

Lemma lower_of_upper_nonupper (c : ascii) :
  isUpperAZ c = false -> charToLower (charToUpper c) = c.
Proof. all_ascii c. Qed.

Lemma upper_of_lower_letter (c : ascii) : isLowerAZ c = true -> isUpperAZ (charToUpper c) = true.
Proof. all_ascii c. Qed.

Lemma charToUpper_idem (c : ascii) : charToUpper (charToUpper c) = charToUpper c.
Proof. all_ascii c. Qed.

Lemma charToUpper_not_underscore (c : ascii) :
  Ascii.eqb c "_" = false -> Ascii.eqb "_" (charToUpper c) = false.
Proof. all_ascii c. Qed.

Lemma lower_letter_not_underscore (c : ascii) : isLowerAZ c = true -> Ascii.eqb c "_" = false.
Proof. all_ascii c. Qed.

Lemma toLowerCase_no_capital (s : string) :
  anyChar isUpperAZ s = false -> toLowerCase s = s.
Proof.
  induction s as [|c s IH]; [reflexivity|].
  rewrite anyChar_cons. intros H. apply orb_false_iff in H as [Hc Hs].
  cbn [toLowerCase]. now rewrite (lower_of_nonupper c Hc), IH.
Qed.

Lemma everyCapitalSnake_lowercase (first : bool) (s : string) :
  anyChar isUpperAZ (everyCapitalSnake first s) = false.
Proof.
  revert first; induction s as [|c s IH]; intros first; [reflexivity|].
  cbn [everyCapitalSnake].
  destruct (negb first && isUpperAZ c);
    rewrite !anyChar_cons, charToLower_not_upper, IH; reflexivity.
Qed.

(** X1.  The snake-case step of [getColumnName], character by character:
    the name in lowercase, with an underscore before every capital that is
    not the first character; the result is that name, followed by an
    underscore when it is a reserved word. *)
Theorem getColumnName_by_characters (x : string) :
  Propertyname x = everyCapitalSnake true x /\
  underscoreGetColumnName x =
    if includes ReservedWords (everyCapitalSnake true x)
    then everyCapitalSnake true x ++ "_"
    else everyCapitalSnake true x.
Proof.
  split; [apply Propertyname_every_capital|].
  unfold underscoreGetColumnName. now rewrite Propertyname_every_capital.
Qed.

Lemma underscoreGetColumnName_no_capital (x : string) :
  anyChar isUpperAZ (underscoreGetColumnName x) = false.
Proof.
  unfold underscoreGetColumnName. rewrite Propertyname_every_capital.
  destruct (includes ReservedWords _).
  - rewrite anyChar_app, everyCapitalSnake_lowercase. reflexivity.
  - apply everyCapitalSnake_lowercase.
Qed.

(** X2.  A column name that [getColumnName] returns has no capital A-Z, in
    both underscore classes. *)
Theorem getColumnName_lowercase (x : string) :
  anyChar isUpperAZ (UnderscoreCqlToCamelCaseMappings.getColumnName x) = false /\
  anyChar isUpperAZ (UnderscoreCqlToPascalCaseMappings.getColumnName x) = false.
Proof. split; apply underscoreGetColumnName_no_capital. Qed.

Lemma ReservedWords_no_underscore (word : string) :
  In word ReservedWords -> anyChar (Ascii.eqb "_") word = false.
Proof.
  assert (H : forallb (fun w => negb (anyChar (Ascii.eqb "_") w)) ReservedWords = true)
    by (vm_compute; reflexivity).
  rewrite forallb_forall in H. intros Hin.
  apply negb_true_iff. exact (H word Hin).
Qed.

Lemma underscoreGetColumnName_not_reserved (x : string) :
  includes ReservedWords (underscoreGetColumnName x) = false.
Proof.
  unfold underscoreGetColumnName.
  destruct (includes ReservedWords (Propertyname x)) eqn:E; [|exact E].
  destruct (includes ReservedWords (Propertyname x ++ "_")) eqn:E'; [|reflexivity].
  apply includes_In, ReservedWords_no_underscore in E'.
  rewrite anyChar_app in E'. apply orb_false_iff in E' as [_ E']. discriminate.
Qed.

(** X3.  [getColumnName] never returns a reserved word, in both underscore
    classes. *)
Theorem getColumnName_never_reserved (x : string) :
  includes ReservedWords (UnderscoreCqlToCamelCaseMappings.getColumnName x) = false /\
  includes ReservedWords (UnderscoreCqlToPascalCaseMappings.getColumnName x) = false.
Proof. split; apply underscoreGetColumnName_not_reserved. Qed.

Lemma underscoreGetColumnName_again (x : string) :
  underscoreGetColumnName (underscoreGetColumnName x) = underscoreGetColumnName x.
Proof.
  pose proof (underscoreGetColumnName_no_capital x) as Hlow.
  pose proof (underscoreGetColumnName_not_reserved x) as Hres.
  set (y := underscoreGetColumnName x) in *.
  assert (Hy : Propertyname y = y).
  { rewrite Propertyname_no_capital.
    - now apply toLowerCase_no_capital.
    - destruct y as [|c y']; [reflexivity|].
      rewrite anyChar_cons in Hlow. now apply orb_false_iff in Hlow. }
  unfold underscoreGetColumnName at 1. now rewrite Hy, Hres.
Qed.

(** X4.  [getColumnName] changes nothing in a name that it returned: the
    conversion of a column name is that column name, in every strategy. *)
Theorem getColumnName_idempotent (s : Strategy) (x : string) :
  getColumnName (mappings s) (getColumnName (mappings s) x)
  = getColumnName (mappings s) x.
Proof. destruct s; [reflexivity | | ]; apply underscoreGetColumnName_again. Qed.

Lemma capitalizeAfterUnderscore_no_underscore (pending : bool) (s : string) :
  anyChar (Ascii.eqb "_") (capitalizeAfterUnderscore pending s) = false.
Proof.
  revert pending; induction s as [|c s IH]; intros pending; [reflexivity|].
  cbn [capitalizeAfterUnderscore].
  destruct (Ascii.eqb c "_") eqn:E; [apply IH|].
  rewrite anyChar_cons, IH, orb_false_r.
  destruct pending; [now apply charToUpper_not_underscore|].
  rewrite Ascii.eqb_sym. exact E.
Qed.

Lemma capitalizeAfterUnderscore_fixed (s : string) :
  anyChar (Ascii.eqb "_") s = false -> capitalizeAfterUnderscore false s = s.
Proof.
  induction s as [|c s IH]; [reflexivity|].
  rewrite anyChar_cons. intros H. apply orb_false_iff in H as [Hc Hs].
  cbn [capitalizeAfterUnderscore]. rewrite Ascii.eqb_sym, Hc. now rewrite IH.
Qed.

Lemma capitalizeAfterUnderscore_head (s : string) :
  capitalizeAfterUnderscore true s = EmptyString \/
  exists c t, capitalizeAfterUnderscore true s = String (charToUpper c) t.
Proof.
  induction s as [|c s IH]; [now left|].
  cbn [capitalizeAfterUnderscore]. destruct (Ascii.eqb c "_"); [exact IH|].
  right. now exists c, (capitalizeAfterUnderscore false s).
Qed.

(** X5.  A property name that [getPropertyName] returns has no underscore,
    and [getPropertyName] changes nothing in it, in both variants. *)
Theorem getPropertyName_no_underscore (s : string) :
  anyChar (Ascii.eqb "_") (camelGetPropertyName s) = false /\
  anyChar (Ascii.eqb "_") (pascalGetPropertyName s) = false /\
  camelGetPropertyName (camelGetPropertyName s) = camelGetPropertyName s /\
  pascalGetPropertyName (pascalGetPropertyName s) = pascalGetPropertyName s.
Proof.
  rewrite !(proj2 (getPropertyName_chars _)), !(proj1 (getPropertyName_chars _)).
  pose proof (capitalizeAfterUnderscore_no_underscore false s) as Hc.
  pose proof (capitalizeAfterUnderscore_no_underscore true s) as Hp.
  repeat split; try assumption.
  - now apply capitalizeAfterUnderscore_fixed.
  - destruct (capitalizeAfterUnderscore_head s) as [-> | [c [t Heq]]]; [reflexivity|].
    rewrite Heq in *. rewrite anyChar_cons in Hp. apply orb_false_iff in Hp as [Hc' Ht].
    cbn [capitalizeAfterUnderscore]. rewrite Ascii.eqb_sym, Hc', charToUpper_idem.
    now rewrite capitalizeAfterUnderscore_fixed.
Qed.

Lemma snake_interior_round_trip (s : string) :
  anyChar isUpperAZ s = false ->
  underscoresBeforeLower s = true ->
  everyCapitalSnake false (capitalizeAfterUnderscore false s) = s /\
  (startsWith isLowerAZ s = true ->
   everyCapitalSnake false (capitalizeAfterUnderscore true s) = String "_" s).
Proof.
  induction s as [|c s IH]; [split; [reflexivity | discriminate]|].
  rewrite anyChar_cons. cbn [underscoresBeforeLower startsWith].
  intros Hup Hshape.
  apply orb_false_iff in Hup as [Hc Hs].
  apply andb_true_iff in Hshape as [Hhere Hrest].
  destruct (IH Hs Hrest) as [IH1 IH2].
  cbn [capitalizeAfterUnderscore]. split.
  - destruct (Ascii.eqb c "_") eqn:E.
    + apply Ascii.eqb_eq in E. subst c. cbn in Hhere. now apply IH2.
    + cbn [everyCapitalSnake negb andb]. rewrite Hc.
      now rewrite (lower_of_nonupper c Hc), IH1.
  - intros Hlow. rewrite (lower_letter_not_underscore c Hlow).
    cbn [everyCapitalSnake negb andb].
    rewrite (upper_of_lower_letter c Hlow), (lower_of_upper_nonupper c Hc), IH1.
    reflexivity.
Qed.

Lemma snake_round_trip (pascal : bool) (c : string) :
  snakeName c = true ->
  Propertyname (capitalizeAfterUnderscore pascal c) = c.
Proof.
  unfold snakeName. intros H.
  apply andb_true_iff in H as [H Hshape]. apply andb_true_iff in H as [Hup Hfirst].
  apply negb_true_iff in Hup. apply negb_true_iff in Hfirst.
  rewrite Propertyname_every_capital.
  destruct c as [|x s]; [reflexivity|].
  cbn [startsWith] in Hfirst. rewrite Ascii.eqb_sym in Hfirst.
  rewrite anyChar_cons in Hup. apply orb_false_iff in Hup as [Hx Hs].
  cbn [underscoresBeforeLower] in Hshape. apply andb_true_iff in Hshape as [_ Hrest].
  cbn [capitalizeAfterUnderscore]. rewrite Hfirst.
  cbn [everyCapitalSnake negb andb].
  rewrite (proj1 (snake_interior_round_trip s Hs Hrest)).
  destruct pascal.
  - now rewrite (lower_of_upper_nonupper x Hx).
  - now rewrite (lower_of_nonupper x Hx).
Qed.

(** X6.  From a column to a property and back.  For a column name in snake
    case (no capital, no underscore in front, a lowercase letter after every
    underscore), [getColumnName] of its property name, in the camel and in
    the Pascal variant, is the column name, followed by an underscore when
    the column name is a reserved word. *)
Theorem column_round_trip (c : string) :
  snakeName c = true ->
  underscoreGetColumnName (camelGetPropertyName c) =
    (if includes ReservedWords c then c ++ "_" else c) /\
  underscoreGetColumnName (pascalGetPropertyName c) =
    (if includes ReservedWords c then c ++ "_" else c).
Proof.
  intros Hc. unfold underscoreGetColumnName.
  rewrite (proj2 (getPropertyName_chars c)), (proj1 (getPropertyName_chars c)).
  now rewrite (snake_round_trip false c Hc), (snake_round_trip true c Hc).
Qed.

Lemma column_round_trip_witness :
  underscoreGetColumnName (camelGetPropertyName "created_at") = "created_at" /\
  underscoreGetColumnName (pascalGetPropertyName "order") = "order_".
Proof.
  split.
  - exact (proj1 (column_round_trip "created_at" eq_refl)).
  - exact (proj2 (column_round_trip "order" eq_refl)).
Defined.

Lemma snakeCase_every_capital (s : string) :
  capitalsBeforeLower s = true ->
  forall P,
    snakeCase s P =
    everyCapitalSnake (match P with None => true | Some _ => false end) s.
Proof.
  induction s as [|c s IH]; intros Hshape P; [reflexivity|].
  cbn [capitalsBeforeLower] in Hshape.
  apply andb_true_iff in Hshape as [Hhere Hrest].
  destruct s as [|d s].
  - cbn [startsWith] in Hhere. rewrite orb_false_r in Hhere.
    apply negb_true_iff in Hhere.
    cbn [snakeCase toLowerCase everyCapitalSnake]. rewrite Hhere, andb_false_r.
    reflexivity.
  - cbn [startsWith] in Hhere.
    change (snakeCase (String c (String d s)) P) with
      (if snakeCaseConditions P c d
       then String "_" (String (charToLower c) (snakeCase (String d s) (Some c)))
       else String (charToLower c) (snakeCase (String d s) (Some c))).
    rewrite (IH Hrest (Some c)).
    change (everyCapitalSnake (match P with None => true | Some _ => false end)
              (String c (String d s))) with
      (if negb (match P with None => true | Some _ => false end) && isUpperAZ c
       then String "_" (String (charToLower c) (everyCapitalSnake false (String d s)))
       else String (charToLower c) (everyCapitalSnake false (String d s))).
    assert (Hcond : snakeCaseConditions P c d =
                    negb (match P with None => true | Some _ => false end) && isUpperAZ c).
    { unfold snakeCaseConditions. destruct (isUpperAZ c).
      - cbn in Hhere. rewrite Hhere. destruct P as [p|]; [|reflexivity].
        destruct (isLowerAZ p); reflexivity.
      - now rewrite andb_false_r. }
    now rewrite Hcond.
Qed.

(** X7.  The declared type and the code.  For a property name in which every
    capital is followed by a lowercase letter, the [snakeCase] type of
    index.d.ts computes the name that the snake-case step of [getColumnName]
    computes. *)
Theorem snakeCase_is_Propertyname (x : string) :
  capitalsBeforeLower x = true ->
  snakeCase x None = Propertyname x.
Proof.
  intros Hx. rewrite Propertyname_every_capital.
  exact (snakeCase_every_capital x Hx None).
Qed.

Lemma snakeCase_is_Propertyname_witness :
  snakeCase "zipCodeOfUser" None = Propertyname "zipCodeOfUser".
Proof. exact (snakeCase_is_Propertyname "zipCodeOfUser" eq_refl). Defined.

Lemma replaceUnderscoreLower_interior (s : string) :
  (forall offset, offset <> 0 -> underscoresBeforeLower s = true ->
     replaceUnderscoreLower offset s = capitalizeAfterUnderscore false s) /\
  (forall c offset, offset <> 0 -> underscoresBeforeLower (String c s) = true ->
     replaceUnderscoreLower offset (String c s)
     = capitalizeAfterUnderscore false (String c s)).
Proof.
  induction s as [|d s [IH1 IH2]].
  - split; [reflexivity|].
    intros c offset _ Hshape. cbn in Hshape. rewrite orb_false_r, andb_true_r in Hshape.
    apply negb_true_iff in Hshape. cbn. now rewrite Hshape.
  - split; [exact (IH2 d)|].
    intros c offset Hoff Hshape.
    cbn [underscoresBeforeLower startsWith] in Hshape.
    apply andb_true_iff in Hshape as [Hhere Hrest].
    change (replaceUnderscoreLower offset (String c (String d s))) with
      (if Ascii.eqb c "_" && isLowerAZ d then
         (if Nat.eqb offset 0 then String c (String d EmptyString)
          else toUpperCase (slice1 (String c (String d EmptyString))))
         ++ replaceUnderscoreLower (offset + 2) s
       else String c (replaceUnderscoreLower (offset + 1) (String d s))).
    cbn [capitalizeAfterUnderscore].
    destruct (Ascii.eqb c "_") eqn:Ec.
    + cbn in Hhere. rewrite Hhere. cbn [andb].
      replace (Nat.eqb offset 0) with false by (symmetry; now apply Nat.eqb_neq).
      rewrite (lower_letter_not_underscore d Hhere).
      cbn [slice1 toUpperCase append].
      cbn [underscoresBeforeLower] in Hrest. apply andb_true_iff in Hrest as [_ Hrest].
      rewrite IH1; [reflexivity | lia | exact Hrest].
    + cbn [andb]. rewrite (IH2 d (offset + 1)); [reflexivity | lia | exact Hrest].
Qed.

(** X8.  The two copies of the camel [getPropertyName].  On a column name
    that does not start with an underscore and has a lowercase letter after
    every underscore, the older [getPropertyName] (a replacement of
    [/_[a-z]/g]) and the current one (a split on ['_']) return the same
    property name. *)
Theorem camel_getPropertyName_copies_agree (columnName : string) :
  startsWith (Ascii.eqb "_") columnName = false ->
  underscoresBeforeLower columnName = true ->
  olderCamelGetPropertyName columnName = camelGetPropertyName columnName.
Proof.
  intros Hfirst Hshape.
  rewrite (proj2 (getPropertyName_chars columnName)).
  unfold olderCamelGetPropertyName.
  destruct columnName as [|c s]; [reflexivity|].
  cbn [startsWith] in Hfirst. rewrite Ascii.eqb_sym in Hfirst.
  cbn [underscoresBeforeLower] in Hshape. apply andb_true_iff in Hshape as [_ Hrest].
  cbn [capitalizeAfterUnderscore]. rewrite Hfirst.
  destruct s as [|d s]; [reflexivity|].
  change (replaceUnderscoreLower 0 (String c (String d s))) with
    (if Ascii.eqb c "_" && isLowerAZ d then
       (if Nat.eqb 0 0 then String c (String d EmptyString)
        else toUpperCase (slice1 (String c (String d EmptyString))))
       ++ replaceUnderscoreLower (0 + 2) s
     else String c (replaceUnderscoreLower (0 + 1) (String d s))).
  rewrite Hfirst. cbn [andb].
  rewrite (proj1 (replaceUnderscoreLower_interior (String d s)));
    [reflexivity | discriminate | exact Hrest].
Qed.

Lemma camel_getPropertyName_copies_agree_witness :
  olderCamelGetPropertyName "created_at_utc" = camelGetPropertyName "created_at_utc".
Proof. exact (camel_getPropertyName_copies_agree "created_at_utc" eq_refl eq_refl). Defined.

(** Where the two copies part: an underscore in front, or one that no
    lowercase letter follows. *)
Lemma camel_getPropertyName_copies_differ :
  olderCamelGetPropertyName "_id" = "_id" /\ camelGetPropertyName "_id" = "Id" /\
  olderCamelGetPropertyName "a__b" = "a_B" /\ camelGetPropertyName "a__b" = "aB" /\
  olderCamelGetPropertyName "col_1" = "col_1" /\ camelGetPropertyName "col_1" = "col1".
Proof. repeat split; reflexivity. Qed.

(** ** Objects *)

Lemma value_induction (P : value -> Prop) :
  P VUndefined -> P VNull ->
  (forall b, P (VBoolean b)) -> (forall n, P (VNumber n)) -> (forall s, P (VString s)) ->
  (forall time, P (VDate time)) ->
  (forall low high unsigned, P (VLong low high unsigned)) ->
  (forall elements, Forall P elements -> P (VArray elements)) ->
  (forall o, Forall (fun kv => P (snd kv)) o -> P (VObject o)) ->
  forall v, P v.
Proof.
  intros Hu Hn Hb Hnum Hs Hd Hl Harr Hobj.
  fix IH 1. intros [ | | b | n | s | time | low high unsigned | elements | o];
    [exact Hu | exact Hn | apply Hb | apply Hnum | apply Hs | apply Hd | apply Hl | | ].
  - apply Harr. induction elements as [|x l IHl]; constructor; [apply IH | exact IHl].
  - apply Hobj. induction o as [|[k x] o IHo]; constructor; [apply IH | exact IHo].
Qed.

Lemma hasOwnProperty_In {V : Type} (key : string) (o : properties V) :
  hasOwnProperty key o = true <-> In key (map fst o).
Proof.
  unfold hasOwnProperty. rewrite existsb_exists, in_map_iff. split.
  - intros [kv [Hin Heq]]. apply String.eqb_eq in Heq. now exists kv.
  - intros [kv [Heq Hin]]. exists kv. split; [exact Hin|]. now apply String.eqb_eq.
Qed.

Lemma getOwnProperty_cons {V : Type} (key k : string) (v : V) (o : properties V) :
  getOwnProperty key ((k, v) :: o) =
  if String.eqb k key then Some v else getOwnProperty key o.
Proof. unfold getOwnProperty. cbn. destruct (String.eqb k key); reflexivity. Qed.

Lemma getOwnProperty_absent {V : Type} (key : string) (o : properties V) :
  hasOwnProperty key o = false -> getOwnProperty key o = None.
Proof.
  induction o as [|[k v] o IH]; [reflexivity|].
  unfold hasOwnProperty in *. cbn [existsb fst]. intros H.
  apply orb_false_iff in H as [Hk Ho].
  rewrite getOwnProperty_cons, Hk. now apply IH.
Qed.





Lemma assignEntry_stores (rename : string -> string) (flag : bool)
    (recur : value -> value) (newObject : properties value) (entry : string * value) :
  assignEntry rename flag recur newObject entry =
  setProperty (rename (fst entry)) (storedValue flag recur (snd entry)) newObject.
Proof.
  destruct entry as [key v]. unfold assignEntry, storedValue. cbn [fst snd].
  destruct (instanceofDate v || isNull v || instanceofLong v); [reflexivity|].
  destruct (isObjectTag (typeof v)); reflexivity.
Qed.






Lemma fold_push {A B : Type} (f : A -> B) (l : list A) :
  forall acc, fold_left (fun Output x => (Output ++ [f x])%list) l acc = (acc ++ map f l)%list.
Proof.
  induction l as [|x l IH]; intros acc; cbn [fold_left map].
  - now rewrite app_nil_r.
  - rewrite IH, <- app_assoc. reflexivity.
Qed.

Lemma indexEntries_values {V : Type} (elements : list V) :
  forall i, map snd (indexEntries i elements) = elements.
Proof.
  induction elements as [|v l IH]; intros i; [reflexivity|].
  cbn [indexEntries map snd]. now rewrite IH.
Qed.

Lemma fold_left_same {A B : Type} (f g : A -> B -> A) :
  (forall a b, f a b = g a b) ->
  forall l a, fold_left f l a = fold_left g l a.
Proof.
  intros Hfg. induction l as [|b l IH]; intros a; [reflexivity|].
  cbn [fold_left]. now rewrite Hfg, IH.
Qed.

Lemma objectToArrayWith_entries (toTableCasing : value -> value) (obj : value) :
  isObjectTag (typeof obj) = true -> isNull obj = false ->
  objectToArrayWith toTableCasing obj =
  map (pushedValue toTableCasing) (map snd (ObjectEntries obj)).
Proof.
  intros Hobj Hnull. unfold objectToArrayWith. rewrite Hobj, Hnull. cbn [negb orb].
  rewrite map_map.
  transitivity (fold_left (fun Output entry =>
                             (Output ++ [pushedValue toTableCasing (snd entry)])%list)
                          (ObjectEntries obj) []).
  - apply fold_left_same. intros Output entry. unfold pushedValue.
    destruct (isObjectTag (typeof (snd entry))); reflexivity.
  - now rewrite (fold_push (fun entry => pushedValue toTableCasing (snd entry))).
Qed.

(** X10.  [objectToArray] gives one element for each property of a mapping,
    and for each element of an array, in their order: the value itself when
    [typeof] is not ["object"], and its [objectToTableCasing] otherwise. *)
Theorem objectToArray_in_order (s : Strategy) :
  (forall o,
      objectToArray (mappings s) (VObject o) =
      map (pushedValue (objectToTableCasing (mappings s))) (map snd o)) /\
  (forall elements,
      objectToArray (mappings s) (VArray elements) =
      map (pushedValue (objectToTableCasing (mappings s))) elements) /\
  (forall o, List.length (objectToArray (mappings s) (VObject o)) = List.length o).
Proof.
  assert (H : forall obj, isObjectTag (typeof obj) = true -> isNull obj = false ->
            objectToArray (mappings s) obj =
            map (pushedValue (objectToTableCasing (mappings s)))
                (map snd (ObjectEntries obj))).
  { intros obj Hobj Hnull. destruct s; now apply objectToArrayWith_entries. }
  split; [|split].
  - intros o. now apply (H (VObject o)).
  - intros elements. rewrite (H (VArray elements)) by reflexivity.
    cbn [ObjectEntries]. now rewrite indexEntries_values.
  - intros o. rewrite (H (VObject o)) by reflexivity.
    cbn [ObjectEntries]. now rewrite !length_map.
Qed.

(** ** Documents on which a walker only renames *)

Lemma distinct_NoDup (keys : list string) : distinct keys = true <-> NoDup keys.
Proof.
  induction keys as [|k keys IH]; cbn [distinct].
  - split; [constructor | reflexivity].
  - rewrite andb_true_iff, negb_true_iff, IH, NoDup_cons_iff.
    assert (Hin : existsb (String.eqb k) keys = false <-> ~ In k keys).
    { rewrite <- not_true_iff_false, existsb_exists. split.
      - intros H Hin. apply H. exists k. split; [exact Hin | apply String.eqb_refl].
      - intros H [k' [Hin Heq]]. apply String.eqb_eq in Heq. now subst. }
    now rewrite Hin.
Qed.

Lemma setProperty_fresh {V : Type} (key : string) (v : V) (o : properties V) :
  plainKey key = true -> hasOwnProperty key o = false ->
  setProperty key v o = (o ++ [(key, v)])%list.
Proof.
  unfold plainKey, setProperty. intros Hplain Hown.
  apply andb_true_iff in Hplain as [Hproto Hindex].
  apply negb_true_iff in Hproto. rewrite Hproto, Hown.
  destruct (arrayIndex key); [discriminate | reflexivity].
Qed.

Lemma fold_setProperty_fresh {V : Type} (entries : properties V) :
  forallb plainKey (map fst entries) = true ->
  forall acc,
    NoDup (map fst acc ++ map fst entries) ->
    fold_left (fun newObject kv => setProperty (fst kv) (snd kv) newObject) entries acc
    = (acc ++ entries)%list.
Proof.
  induction entries as [|[k v] entries IH]; intros Hplain acc Hnodup.
  - now rewrite app_nil_r.
  - cbn [map fst forallb] in Hplain. apply andb_true_iff in Hplain as [Hk Hrest].
    cbn [map fst] in Hnodup. cbn [fold_left fst snd].
    pose proof (NoDup_remove_2 _ _ _ Hnodup) as Hnotin.
    rewrite setProperty_fresh; [| exact Hk |].
    + rewrite IH; [now rewrite <- app_assoc | exact Hrest |].
      rewrite map_app, <- app_assoc. exact Hnodup.
    + apply not_true_iff_false. intros Hown. apply hasOwnProperty_In in Hown.
      apply Hnotin, in_or_app. now left.
Qed.

Lemma fold_assignEntry_map (rename : string -> string) (flag : bool)
    (recur : value -> value) (o : properties value) :
  forall acc,
    fold_left (assignEntry rename flag recur) o acc =
    fold_left (fun newObject kv => setProperty (fst kv) (snd kv) newObject)
              (map (fun kv => (rename (fst kv), storedValue flag recur (snd kv))) o) acc.
Proof.
  induction o as [|entry o IH]; intros acc; [reflexivity|].
  cbn [fold_left map fst snd]. now rewrite assignEntry_stores, IH.
Qed.

Lemma forallb_Forall_impl {A : Type} (p q : A -> bool) (l : list A) :
  Forall (fun x => p x = true -> q x = true) l ->
  forallb p l = true -> forallb q l = true.
Proof.
  induction 1 as [|x l Hx Hl IH]; [reflexivity|].
  cbn [forallb]. rewrite !andb_true_iff. intros [Hp Hrest]. auto.
Qed.

Lemma map_Forall_ext {A B : Type} (f g : A -> B) (l : list A) :
  Forall (fun x => f x = g x) l -> map f l = map g l.
Proof. induction 1 as [|x l Hx Hl IH]; [reflexivity|]. cbn [map]. now rewrite Hx, IH. Qed.

Lemma Forall_forallb_and {A : Type} (P : A -> Prop) (p : A -> bool) (l : list A) :
  Forall P l -> forallb p l = true -> Forall (fun x => P x /\ p x = true) l.
Proof.
  induction 1 as [|x l Hx Hl IH]; [constructor|].
  cbn [forallb]. rewrite andb_true_iff. intros [Hp Hrest]. constructor; auto.
Qed.

Lemma regular_walk (rename : string -> string) (flag : bool) (v : value) :
  forall leaf,
    regular rename flag leaf v = true ->
    storedValue flag (objectToCasing rename flag) v = renameKeys rename v /\
    (leaf = false -> objectToCasing rename flag v = renameKeys rename v).
Proof.
  induction v as [ | | b | n | s | time | low high unsigned | elements IH | o IH]
    using value_induction; intros leaf Hreg; try (split; reflexivity).
  - cbn in Hreg. subst leaf. split; [reflexivity | discriminate].
  - cbn in Hreg. apply andb_true_iff in Hreg as [-> Hflag].
    apply negb_true_iff in Hflag. subst flag. split; [reflexivity | discriminate].
  - cbn [regular] in Hreg.
    assert (Hmap : objectToCasing rename flag (VArray elements)
                   = renameKeys rename (VArray elements)).
    { cbn [objectToCasing renameKeys]. f_equal. apply map_Forall_ext.
      apply (Forall_forallb_and _ _ _ IH) in Hreg.
      eapply Forall_impl; [|exact Hreg].
      intros x [Hx Hregx]. now apply (Hx false). }
    split; [exact Hmap | intros _; exact Hmap].
  - cbn [regular] in Hreg.
    apply andb_true_iff in Hreg as [Hreg Hvalues].
    apply andb_true_iff in Hreg as [Hplain Hdistinct].
    assert (Hmap : objectToCasing rename flag (VObject o)
                   = renameKeys rename (VObject o)).
    { cbn [objectToCasing renameKeys]. f_equal.
      rewrite fold_assignEntry_map, fold_setProperty_fresh.
      - cbn [app]. apply map_Forall_ext.
        apply (Forall_forallb_and _ _ _ IH) in Hvalues.
        eapply Forall_impl; [|exact Hvalues].
        intros kv [Hkv Hregkv]. now rewrite (proj1 (Hkv true Hregkv)).
      - now rewrite map_map.
      - cbn [map app]. rewrite map_map. cbn [fst]. now apply distinct_NoDup. }
    split; [exact Hmap | intros _; exact Hmap].
Qed.

(** X11.  On a document whose converted keys are plain (neither [__proto__]
    nor an array index) and pairwise different in every object, and in which
    a [Date] or a [Long] occurs only as the value of a property (a [Long]
    only with the flag off), a walker only renames the keys: the shape, the
    order of the properties and the values are those of the document. *)
Theorem walker_only_renames (rename : string -> string) (flag : bool) (v : value) :
  regular rename flag false v = true ->
  objectToCasing rename flag v = renameKeys rename v.
Proof. intros Hreg. now apply (proj2 (regular_walk rename flag v false Hreg)). Qed.

Lemma walker_only_renames_witness :
  objectToTableCasing (mappings (PascalCase true))
    (VObject [("OrderId", VNumber 7);
              ("Lines", VArray [VObject [("ItemCode", VString "a"); ("ShippedAt", VDate 3)]])])
  = VObject [("order_id", VNumber 7);
             ("lines", VArray [VObject [("item_code", VString "a"); ("shipped_at", VDate 3)]])].
Proof.
  exact (walker_only_renames underscoreGetColumnName false
           (VObject [("OrderId", VNumber 7);
                     ("Lines", VArray [VObject [("ItemCode", VString "a");
                                                ("ShippedAt", VDate 3)]])])
           eq_refl).
Defined.

(** ** The round trip of a document *)

Lemma lower_start_plain (key : string) : startsWith isLowerAZ key = true -> plainKey key = true.
Proof.
  destruct key as [|c rest]; [discriminate|]. cbn [startsWith]. intros Hc.
  unfold plainKey, arrayIndex, allChars. cbn [String.eqb list_ascii_of_string forallb].
  rewrite (lower_letter_not_underscore c Hc).
  replace (isDigit c) with false by (revert Hc; all_ascii c).
  reflexivity.
Qed.

Lemma upper_start_plain (key : string) : startsWith isUpperAZ key = true -> plainKey key = true.
Proof.
  destruct key as [|c rest]; [discriminate|]. cbn [startsWith]. intros Hc.
  unfold plainKey, arrayIndex, allChars. cbn [String.eqb list_ascii_of_string forallb].
  replace (Ascii.eqb c "_") with false by (revert Hc; all_ascii c).
  replace (isDigit c) with false by (revert Hc; all_ascii c).
  reflexivity.
Qed.

Lemma letter_lower_is_lower (c : ascii) : isLetter c = true -> isLowerAZ (charToLower c) = true.
Proof. all_ascii c. Qed.

Lemma startsWith_app (p : ascii -> bool) (a b : string) :
  startsWith p a = true -> startsWith p (a ++ b) = true.
Proof. destruct a; [discriminate | trivial]. Qed.

Lemma underscoreGetColumnName_lower_start (key : string) :
  allChars isLetter key = true -> key <> EmptyString ->
  startsWith isLowerAZ (underscoreGetColumnName key) = true.
Proof.
  intros Hletters Hne. destruct key as [|c rest]; [congruence|].
  rewrite allChars_cons in Hletters. apply andb_true_iff in Hletters as [Hc _].
  assert (H : startsWith isLowerAZ (Propertyname (String c rest)) = true)
    by (rewrite Propertyname_cons; cbn [startsWith]; now apply letter_lower_is_lower).
  unfold underscoreGetColumnName. destruct (includes ReservedWords _); [|exact H].
  now apply startsWith_app.
Qed.

(** The names of a strategy: their column names are plain, and the property
    name of the column name is the name. *)
Lemma propertyKey_round_trip (s : Strategy) (key : string) :
  propertyKey s key = true ->
  plainKey key = true /\
  plainKey (getColumnName (mappings s) key) = true /\
  getPropertyName (mappings s) (getColumnName (mappings s) key) = key.
Proof.
  destruct s as [|flag|flag]; cbn [propertyKey mappings getColumnName getPropertyName].
  - intros H. now repeat split.
  - intros H. apply andb_true_iff in H as [Hletters Hfirst].
    unfold UnderscoreCqlToCamelCaseMappings.getColumnName,
      UnderscoreCqlToCamelCaseMappings.getPropertyName.
    split; [now apply lower_start_plain|]. split.
    + apply lower_start_plain, underscoreGetColumnName_lower_start; [exact Hletters|].
      intros ->. discriminate.
    + rewrite (proj2 (getPropertyName_chars _)).
      now apply (underscore_round_trip false).
  - intros H. apply andb_true_iff in H as [Hletters Hfirst].
    unfold UnderscoreCqlToPascalCaseMappings.getColumnName,
      UnderscoreCqlToPascalCaseMappings.getPropertyName.
    split; [now apply upper_start_plain|]. split.
    + apply lower_start_plain, underscoreGetColumnName_lower_start; [exact Hletters|].
      intros ->. discriminate.
    + rewrite (proj1 (getPropertyName_chars _)).
      now apply (underscore_round_trip true).
Qed.

Lemma forallb_of_map {A B : Type} (p : B -> bool) (f : A -> B) (l : list A) :
  forallb p (map f l) = forallb (fun x => p (f x)) l.
Proof. induction l as [|x l IH]; [reflexivity|]. cbn [map forallb]. now rewrite IH. Qed.

Section Renaming.

Variable good : string -> bool.
Variables r1 r2 : string -> string.

Hypothesis plain_after : forall key, good key = true -> plainKey (r1 key) = true.
Hypothesis back : forall key, good key = true -> r2 (r1 key) = key.

Lemma back_on_keys (o : properties value) :
  forallb (fun kv => good (fst kv)) o = true ->
  map (fun kv => r2 (r1 (fst kv))) o = map fst o.
Proof.
  induction o as [|kv o IH]; [reflexivity|].
  cbn [forallb map]. rewrite andb_true_iff. intros [Hk Hrest].
  now rewrite (back _ Hk), IH.
Qed.

Lemma keysAll_keys (o : properties value) :
  forallb (fun kv => good (fst kv) && keysAll good (snd kv)) o = true ->
  forallb (fun kv => good (fst kv)) o = true /\
  forallb (fun kv => keysAll good (snd kv)) o = true.
Proof.
  induction o as [|kv o IH]; [split; reflexivity|].
  cbn [forallb]. rewrite !andb_true_iff. intros [[Hk Hv] Hrest].
  destruct (IH Hrest). auto.
Qed.

Lemma renamed_keys_distinct (o : properties value) :
  forallb (fun kv => good (fst kv)) o = true ->
  NoDup (map fst o) ->
  NoDup (map (fun kv => r1 (fst kv)) o).
Proof.
  intros Hgood Hnodup.
  apply (NoDup_map_inv r2). rewrite map_map. now rewrite back_on_keys.
Qed.

Lemma forallb_Forall {A : Type} (p : A -> bool) (l : list A) :
  forallb p l = true -> Forall (fun x => p x = true) l.
Proof. intros H. apply Forall_forall. now apply forallb_forall. Qed.

Lemma Forall_forallb {A : Type} (p : A -> bool) (l : list A) :
  Forall (fun x => p x = true) l -> forallb p l = true.
Proof. intros H. apply forallb_forall. now apply Forall_forall. Qed.

Lemma Forall_and3 {A : Type} (P : A -> Prop) (p q : A -> bool) (l : list A) :
  Forall P l -> forallb p l = true -> forallb q l = true ->
  Forall (fun x => P x /\ p x = true /\ q x = true) l.
Proof.
  induction 1 as [|x l Hx Hl IH]; [constructor|].
  cbn [forallb]. rewrite !andb_true_iff. intros [Hp Hps] [Hq Hqs]. constructor; auto.
Qed.

(** The walk to the columns only renames. *)
Lemma regular_to_columns (flag : bool) (v : value) :
  forall leaf,
    keysAll good v = true ->
    regular (fun key => key) flag leaf v = true ->
    regular r1 flag leaf v = true.
Proof.
  induction v as [ | | b | n | s | time | low high unsigned | elements IH | o IH]
    using value_induction; intros leaf Hkeys Hreg; try exact Hreg.
  - cbn [regular keysAll] in *. apply Forall_forallb.
    eapply Forall_impl; [|exact (Forall_and3 _ _ _ _ IH Hkeys Hreg)].
    intros x [Hx [Hk Hr]]. now apply Hx.
  - cbn [regular keysAll] in *.
    apply andb_true_iff in Hreg as [Hreg Hvalues].
    apply andb_true_iff in Hreg as [Hplain Hdistinct].
    destruct (keysAll_keys o Hkeys) as [Hgood Hinner].
    rewrite !andb_true_iff. split; [split|].
    + rewrite forallb_of_map. apply Forall_forallb.
      eapply Forall_impl; [|exact (forallb_Forall _ _ Hgood)].
      intros kv Hkv. now apply plain_after.
    + apply distinct_NoDup. apply renamed_keys_distinct; [exact Hgood|].
      now apply distinct_NoDup.
    + apply Forall_forallb.
      eapply Forall_impl; [|exact (Forall_and3 _ _ _ _ IH Hinner Hvalues)].
      intros kv [Hx [Hk Hr]]. now apply Hx.
Qed.

(** The renamed document is one on which the walk back only renames. *)
Lemma regular_renamed (flag : bool) (v : value) :
  forall leaf,
    keysAll good v = true ->
    regular (fun key => key) flag leaf v = true ->
    regular r2 flag leaf (renameKeys r1 v) = true.
Proof.
  induction v as [ | | b | n | s | time | low high unsigned | elements IH | o IH]
    using value_induction; intros leaf Hkeys Hreg; try exact Hreg.
  - cbn [regular keysAll renameKeys] in *. rewrite forallb_of_map. apply Forall_forallb.
    eapply Forall_impl; [|exact (Forall_and3 _ _ _ _ IH Hkeys Hreg)].
    intros x [Hx [Hk Hr]]. now apply Hx.
  - cbn [regular keysAll renameKeys] in *.
    apply andb_true_iff in Hreg as [Hreg Hvalues].
    apply andb_true_iff in Hreg as [Hplain Hdistinct].
    destruct (keysAll_keys o Hkeys) as [Hgood Hinner].
    rewrite !map_map. cbn [fst].
    assert (Hsame : map (fun kv => r2 (r1 (fst kv))) o
                    = map (fun kv : string * value => (fun key : string => key) (fst kv)) o)
      by (rewrite (back_on_keys o Hgood); reflexivity).
    rewrite Hsame, Hplain, Hdistinct. cbn [andb].
    rewrite forallb_of_map. cbn [snd]. apply Forall_forallb.
    eapply Forall_impl; [|exact (Forall_and3 _ _ _ _ IH Hinner Hvalues)].
    intros kv [Hx [Hk Hr]]. now apply Hx.
Qed.

Lemma renameKeys_back (v : value) :
  keysAll good v = true -> renameKeys r2 (renameKeys r1 v) = v.
Proof.
  induction v as [ | | b | n | s | time | low high unsigned | elements IH | o IH]
    using value_induction; intros Hkeys; try reflexivity.
  - cbn [renameKeys keysAll] in *. f_equal. rewrite map_map.
    rewrite <- (map_id elements) at 2. apply map_Forall_ext.
    eapply Forall_impl; [|exact (Forall_forallb_and _ _ _ IH Hkeys)].
    intros x [Hx Hk]. now apply Hx.
  - cbn [renameKeys keysAll] in *. f_equal. rewrite map_map. cbn [fst snd].
    rewrite <- (map_id o) at 2. apply map_Forall_ext.
    eapply Forall_impl; [|exact (Forall_forallb_and _ _ _ IH Hkeys)].
    intros [k x] [Hx Hk]. cbn [fst snd] in *.
    apply andb_true_iff in Hk as [Hgood Hinner].
    now rewrite (back k Hgood), (Hx Hinner).
Qed.

End Renaming.

Lemma regular_flag (rename : string -> string) (flag1 flag2 : bool) (v : value) :
  (flag2 = true -> flag1 = true) ->
  forall leaf, regular rename flag1 leaf v = true -> regular rename flag2 leaf v = true.
Proof.
  intros Hflags.
  induction v as [ | | b | n | s | time | low high unsigned | elements IH | o IH]
    using value_induction; intros leaf Hreg; try exact Hreg.
  - cbn [regular] in *. apply andb_true_iff in Hreg as [-> Hflag].
    apply negb_true_iff in Hflag. destruct flag2; [|reflexivity].
    rewrite Hflags in Hflag by reflexivity. discriminate.
  - cbn [regular] in *. apply Forall_forallb.
    eapply Forall_impl; [|exact (Forall_forallb_and _ _ _ IH Hreg)].
    intros x [Hx Hr]. now apply Hx.
  - cbn [regular] in *.
    apply andb_true_iff in Hreg as [Hreg Hvalues]. rewrite Hreg. cbn [andb].
    apply Forall_forallb.
    eapply Forall_impl; [|exact (Forall_forallb_and _ _ _ IH Hvalues)].
    intros x [Hx Hr]. now apply Hx.
Qed.

Lemma strategy_bodies (s : Strategy) :
  objectToTableCasing (mappings s) = objectToCasing (getColumnName (mappings s)) (tableFlag s) /\
  objectToFixedCasing (mappings s) = objectToCasing (getPropertyName (mappings s)) (fixedFlag s).
Proof. destruct s; split; reflexivity. Qed.

(** X12.  The round trip of a document.  Take a document whose keys are
    property names of the strategy (plain keys for the default strategy;
    letters, starting with a lowercase letter for the camel strategy and with
    a capital for the Pascal one), pairwise different in every object, with a
    [Date] or a [Long] only as the value of a property, and no [Long] when
    the strategy converts them to strings.  Then [objectToTableCasing] gives
    the document with its keys converted by [getColumnName], and
    [objectToFixedCasing] of that result is the document. *)
Theorem document_round_trip (s : Strategy) (v : value) :
  keysAll (propertyKey s) v = true ->
  regular (fun key => key) (fixedFlag s) false v = true ->
  objectToTableCasing (mappings s) v = renameKeys (getColumnName (mappings s)) v /\
  objectToFixedCasing (mappings s) (objectToTableCasing (mappings s) v) = v.
Proof.
  intros Hkeys Hreg.
  destruct (strategy_bodies s) as [-> ->].
  assert (Hplain : forall key, propertyKey s key = true ->
                               plainKey (getColumnName (mappings s) key) = true)
    by (intros key Hk; apply (propertyKey_round_trip s key Hk)).
  assert (Hback : forall key, propertyKey s key = true ->
            getPropertyName (mappings s) (getColumnName (mappings s) key) = key)
    by (intros key Hk; apply (propertyKey_round_trip s key Hk)).
  assert (Htable : regular (fun key => key) (tableFlag s) false v = true).
  { apply (regular_flag _ (fixedFlag s)); [|exact Hreg].
    destruct s; cbn; intros H; first [exact H | discriminate H]. }
  assert (Hfirst : objectToCasing (getColumnName (mappings s)) (tableFlag s) v
                   = renameKeys (getColumnName (mappings s)) v).
  { exact (proj2 (regular_walk _ _ v false
                    (regular_to_columns _ _ _ Hplain Hback _ v false Hkeys Htable)) eq_refl). }
  split; [exact Hfirst|].
  rewrite Hfirst.
  rewrite (proj2 (regular_walk _ _ _ false
                    (regular_renamed _ _ _ Hback _ v false Hkeys Hreg)) eq_refl).
  exact (renameKeys_back _ _ _ Hback v Hkeys).
Qed.

Lemma document_round_trip_witness :
  let document :=
    VObject [("userId", VNumber 1);
             ("createdAt", VDate 5);
             ("addresses", VArray [VObject [("zipCode", VString "X"); ("geo", VNull)]])] in
  objectToFixedCasing (mappings (CamelCase true))
    (objectToTableCasing (mappings (CamelCase true)) document) = document.
Proof.
  exact (proj2 (document_round_trip (CamelCase true)
    (VObject [("userId", VNumber 1);
              ("createdAt", VDate 5);
              ("addresses", VArray [VObject [("zipCode", VString "X"); ("geo", VNull)]])])
    eq_refl eq_refl)).
Defined.

(** ** The store under [objectToTableCasing] *)

Module StoreFacts.
Import AliasedFacts.

Lemma objectToTableCasing_body (s : Strategy) :
  exists rename flag, Aliased.objectToTableCasing s = Aliased.objectToCasing rename flag.
Proof. destruct s; eexists; eexists; reflexivity. Qed.

Lemma assignEntry_grows (rename : string -> string) (flag : bool)
    (recur : Aliased.hvalue -> Aliased.Exec Aliased.hvalue) (n : Aliased.address)
    (entry : string * Aliased.hvalue) (st st' : Aliased.store) (u : unit) :
  Aliased.keepsStore recur ->
  Aliased.assignEntry rename flag recur n entry st = Aliased.Normal u st' ->
  List.length st <= List.length st'.
Proof.
  intros Hkeep. destruct entry as [key v]. rewrite assignEntry_step. unfold Aliased.assign.
  destruct (Aliased.instanceofDate _ || Aliased.isNull v || Aliased.instanceofLong _).
  - intros H; injection H as _ <-. now rewrite modify_length.
  - destruct (isObjectTag (Aliased.typeof v)).
    + destruct (recur v st) as [converted st1|e] eqn:Hrec; [|discriminate].
      intros H; injection H as _ <-. rewrite modify_length.
      apply (Hkeep _ _ _ _ Hrec).
    + intros H; injection H as _ <-. now rewrite modify_length.
Qed.

Lemma forEach_grows (rename : string -> string) (flag : bool)
    (recur : Aliased.hvalue -> Aliased.Exec Aliased.hvalue) (n : Aliased.address)
    (entries : properties Aliased.hvalue) :
  Aliased.keepsStore recur ->
  forall st st' u,
    Aliased.forEach (Aliased.assignEntry rename flag recur n) entries st
      = Aliased.Normal u st' ->
    List.length st <= List.length st'.
Proof.
  intros Hkeep. induction entries as [|entry entries IH]; intros st st' u.
  - intros H; injection H as _ <-. apply Nat.le_refl.
  - rewrite forEach_cons.
    destruct (Aliased.assignEntry _ _ _ _ entry st) as [u1 st1|e] eqn:Hentry; [|discriminate].
    intros H. apply IH in H.
    pose proof (assignEntry_grows _ _ _ _ _ _ _ _ Hkeep Hentry). lia.
Qed.

(** X13.  [objectToTableCasing] does not touch what it is given.  When a call
    returns, every object that was in the store before the call is there
    unchanged; for an argument that is an object the result is a new object,
    made by the call; an argument that is no object, or [null], is returned
    as it is, and nothing is made. *)
Theorem objectToTableCasing_makes_new_objects
    (s : Strategy) (frames : nat) (v r : Aliased.hvalue) (st st' : Aliased.store) :
  Aliased.objectToTableCasing s frames v st = Aliased.Normal r st' ->
  Aliased.preserves st st' /\
  (forall a, v = Aliased.HObject a ->
             exists a', r = Aliased.HObject a' /\ List.length st <= a' /\
                        a' < List.length st') /\
  (negb (isObjectTag (Aliased.typeof v)) || Aliased.isNull v = true -> r = v /\ st' = st).
Proof.
  destruct (objectToTableCasing_body s) as [rename [flag ->]].
  intros Hcall. split; [exact (objectToCasing_keepsStore rename flag frames _ _ _ _ Hcall)|].
  destruct frames as [|frames]; [discriminate|]. split.
  - intros a ->. rewrite objectToCasing_step in Hcall.
    assert (Hloop : forall o,
      match Aliased.forEach
              (Aliased.assignEntry rename flag (Aliased.objectToCasing rename flag frames)
                 (List.length st))
              (Aliased.ObjectEntries o) (st ++ [Aliased.OPlain []])%list with
      | Aliased.Normal _ st1 => Aliased.Normal (Aliased.HObject (List.length st)) st1
      | Aliased.Throw e => Aliased.Throw e
      end = Aliased.Normal r st' ->
      exists a', r = Aliased.HObject a' /\ List.length st <= a' /\ a' < List.length st').
    { intros o. destruct (Aliased.forEach _ _ _) as [u st1|e] eqn:Hfor; [|discriminate].
      intros H; injection H as <- <-. exists (List.length st). repeat split; [lia|].
      pose proof (forEach_grows rename flag _ _ _
                    (objectToCasing_keepsStore rename flag frames) _ _ _ Hfor) as Hle.
      rewrite length_app in Hle. cbn in Hle. lia. }
    revert Hcall.
    destruct (nth a st (Aliased.OPlain [])) as [time|low high unsigned|elements|props];
      try apply Hloop.
    destruct (Aliased.mapEach _ elements st) as [mapped st1|e] eqn:Hmap; [|discriminate].
    intros Hcall. injection Hcall as <- <-. exists (List.length st1).
    pose proof (mapEach_preserves _ elements
                  (objectToCasing_keepsStore rename flag frames) _ _ _ Hmap) as [Hle _].
    rewrite length_app. cbn. repeat split; lia.
  - intros Hprim. rewrite objectToCasing_primitive_step in Hcall by exact Hprim.
    injection Hcall as <- <-. now split.
Qed.

Lemma objectToTableCasing_makes_new_objects_witness :
  Aliased.preserves
    [Aliased.OPlain [("userId", Aliased.HNumber 1)]]
    [Aliased.OPlain [("userId", Aliased.HNumber 1)];
     Aliased.OPlain [("user_id", Aliased.HNumber 1)]].
Proof.
  exact (proj1 (objectToTableCasing_makes_new_objects (CamelCase false) 3
                  (Aliased.HObject 0) (Aliased.HObject 1)
                  [Aliased.OPlain [("userId", Aliased.HNumber 1)]]
                  [Aliased.OPlain [("userId", Aliased.HNumber 1)];
                   Aliased.OPlain [("user_id", Aliased.HNumber 1)]]
                  eq_refl)).
Defined.

End StoreFacts.

(** ** The older copy of the walkers *)

Lemma older_assignEntry_stores (rename : string -> string) (recur : value -> outcome value)
    (o : properties value) (entry : string * value) :
  OlderCopy.assignEntry rename recur (Returned o) entry =
  match OlderCopy.storedValue recur (snd entry) with
  | Returned x => Returned (setProperty (rename (fst entry)) x o)
  | Thrown e => Thrown e
  end.
Proof.
  destruct entry as [key v]. unfold OlderCopy.assignEntry, OlderCopy.storedValue.
  cbn [fst snd].
  destruct (instanceofDate v || isNull v); [reflexivity|].
  destruct (isObjectTag (typeof v)); reflexivity.
Qed.

Lemma older_fold_thrown (rename : string -> string) (recur : value -> outcome value)
    (e : string) (o : properties value) :
  fold_left (OlderCopy.assignEntry rename recur) o (Thrown e) = Thrown e.
Proof. induction o as [|entry o IH]; [reflexivity | exact IH]. Qed.

Lemma older_fold_primitive (rename : string -> string) (recur : value -> outcome value)
    (entries : properties value) :
  Forall (fun kv => isObjectTag (typeof (snd kv)) = false) entries ->
  forall acc,
    fold_left (OlderCopy.assignEntry rename recur) entries (Returned acc)
    = Returned (fold_left (assignPrimitive rename) entries acc).
Proof.
  induction 1 as [|[key v] entries Hv Hrest IH]; intros acc; [reflexivity|].
  cbn [fold_left]. rewrite older_assignEntry_stores. unfold OlderCopy.storedValue.
  cbn [fst snd] in *. rewrite Hv.
  destruct (instanceofDate v || isNull v); apply IH.
Qed.

Lemma characterEntries_primitive (s : string) :
  Forall (fun kv => isObjectTag (typeof (snd kv)) = false) (characterEntries s).
Proof.
  unfold characterEntries. generalize 0.
  induction (list_ascii_of_string s) as [|c l IH]; intros i; constructor;
    [reflexivity | apply IH].
Qed.

(** The older body, with the tests of the source in their order. *)
Lemma older_objectToCasing_body (rename : string -> string) (obj : value) :
  OlderCopy.objectToCasing rename obj =
  if negb (isArray obj) then
    match entriesOf obj with
    | Thrown e => Thrown e
    | Returned entries =>
        match fold_left (OlderCopy.assignEntry rename (OlderCopy.objectToCasing rename))
                        entries (Returned []) with
        | Returned newObject => Returned (VObject newObject)
        | Thrown e => Thrown e
        end
    end
  else
    match obj with
    | VArray elements =>
        match mapOutcome (OlderCopy.objectToCasing rename) elements with
        | Returned mapped => Returned (VArray mapped)
        | Thrown e => Thrown e
        end
    | _ => Returned obj
    end.
Proof.
  destruct obj; try reflexivity.
  cbn [OlderCopy.objectToCasing isArray negb entriesOf].
  now rewrite (older_fold_primitive rename _ _ (characterEntries_primitive s)).
Qed.






(** Where the two copies of the walkers part. *)
Lemma older_walker_differs :
  OlderCopy.objectToTableCasing (VArray [VNumber 1]) = Returned (VArray [VObject []]) /\
  objectToTableCasing (mappings (CamelCase false)) (VArray [VNumber 1]) = VArray [VNumber 1] /\
  OlderCopy.objectToTableCasing (VObject [("id", VLong 5 0 false)])
  = Returned (VObject [("id", VObject [("low", VNumber 5); ("high", VNumber 0);
                                       ("unsigned", VBoolean false)])]) /\
  objectToTableCasing (mappings (CamelCase false)) (VObject [("id", VLong 5 0 false)])
  = VObject [("id", VLong 5 0 false)].
Proof. repeat split; reflexivity. Qed.

Lemma mapOutcome_throws (f : value -> outcome value) (l : list value) :
  Forall (fun x => (reachesNull x = true -> f x = Thrown "TypeError") /\
                   (reachesNull x = false -> exists r, f x = Returned r)) l ->
  (existsb reachesNull l = true -> mapOutcome f l = Thrown "TypeError") /\
  (existsb reachesNull l = false -> exists rs, mapOutcome f l = Returned rs).
Proof.
  induction 1 as [|x l [Hthrow Hret] Hl [IHthrow IHret]];
    [split; [discriminate | intros _; now exists []]|].
  cbn [existsb mapOutcome]. destruct (reachesNull x).
  - rewrite (Hthrow eq_refl). split; [reflexivity | discriminate].
  - destruct (Hret eq_refl) as [r ->]. cbn [orb]. split.
    + intros H. now rewrite (IHthrow H).
    + intros H. destruct (IHret H) as [rs ->]. now exists (r :: rs).
Qed.

Lemma older_fold_throws (rename : string -> string) (recur : value -> outcome value)
    (o : properties value) :
  Forall (fun kv => (reachesNull (snd kv) = true -> recur (snd kv) = Thrown "TypeError") /\
                    (reachesNull (snd kv) = false -> exists r, recur (snd kv) = Returned r)) o ->
  forall acc,
    (existsb (fun kv => isObjectTag (typeof (snd kv)) && negb (isNull (snd kv))
                        && reachesNull (snd kv)) o = true ->
     fold_left (OlderCopy.assignEntry rename recur) o (Returned acc) = Thrown "TypeError") /\
    (existsb (fun kv => isObjectTag (typeof (snd kv)) && negb (isNull (snd kv))
                        && reachesNull (snd kv)) o = false ->
     exists newObject,
       fold_left (OlderCopy.assignEntry rename recur) o (Returned acc) = Returned newObject).
Proof.
  induction 1 as [|[key v] o [Hthrow Hret] Ho IH]; intros acc;
    [split; [discriminate | intros _; now exists acc]|].
  cbn [existsb fold_left snd] in *.
  rewrite older_assignEntry_stores. unfold OlderCopy.storedValue. cbn [fst snd].
  assert (Hdate : instanceofDate v = true -> reachesNull v = false)
    by (destruct v; discriminate || reflexivity).
  destruct (isNull v) eqn:Hnull.
  - rewrite orb_true_r, andb_false_r. cbn [negb andb orb]. apply IH.
  - rewrite orb_false_r. cbn [negb]. rewrite andb_true_r.
    destruct (instanceofDate v) eqn:HisDate.
    + rewrite (Hdate eq_refl), andb_false_r. cbn [orb]. apply IH.
    + destruct (isObjectTag (typeof v)); cbn [andb orb]; [|apply IH].
      destruct (reachesNull v).
      * rewrite (Hthrow eq_refl), older_fold_thrown. split; [reflexivity | discriminate].
      * destruct (Hret eq_refl) as [r ->]. apply IH.
Qed.

Lemma older_objectToCasing_array (rename : string -> string) (elements : list value) :
  OlderCopy.objectToCasing rename (VArray elements) =
  match mapOutcome (OlderCopy.objectToCasing rename) elements with
  | Returned mapped => Returned (VArray mapped)
  | Thrown e => Thrown e
  end.
Proof. reflexivity. Qed.

Lemma older_objectToCasing_object (rename : string -> string) (o : properties value) :
  OlderCopy.objectToCasing rename (VObject o) =
  match fold_left (OlderCopy.assignEntry rename (OlderCopy.objectToCasing rename))
                  o (Returned []) with
  | Returned newObject => Returned (VObject newObject)
  | Thrown e => Thrown e
  end.
Proof. reflexivity. Qed.

Lemma older_walk_throws (rename : string -> string) (v : value) :
  (reachesNull v = true -> OlderCopy.objectToCasing rename v = Thrown "TypeError") /\
  (reachesNull v = false -> exists r, OlderCopy.objectToCasing rename v = Returned r).
Proof.
  induction v as [ | | b | n | s | time | low high unsigned | elements IH | o IH]
    using value_induction;
    try (split; [reflexivity | discriminate]);
    try (split; [discriminate | intros _; eexists; reflexivity]).
  - rewrite older_objectToCasing_array. cbn [reachesNull].
    destruct (mapOutcome_throws _ _ IH) as [Hthrow Hret]. split.
    + intros H. now rewrite (Hthrow H).
    + intros H. destruct (Hret H) as [rs ->]. now eexists.
  - rewrite older_objectToCasing_object. cbn [reachesNull].
    destruct (older_fold_throws rename _ _ IH []) as [Hthrow Hret].
    unfold properties in *. split.
    + intros H. now rewrite (Hthrow H).
    + intros H. destruct (Hret H) as [newObject ->]. now eexists.
Qed.

(** X15.  When the older walkers throw.  The older [objectToFixedCasing] and
    [objectToTableCasing] end with a [TypeError] exactly when the walk
    reaches [undefined] or [null] with [Object.entries]: the argument is one
    of them, or one of them is an element of an array of the document;
    otherwise they return.  (The current copy returns [null] and
    [undefined] as they are.) *)
Theorem older_walker_TypeError (rename : string -> string) (v : value) :
  (reachesNull v = true <-> OlderCopy.objectToCasing rename v = Thrown "TypeError") /\
  (reachesNull v = false <-> exists r, OlderCopy.objectToCasing rename v = Returned r).
Proof.
  destruct (older_walk_throws rename v) as [Hthrow Hret].
  destruct (reachesNull v).
  - rewrite (Hthrow eq_refl). split; split; try reflexivity; try discriminate.
    intros [r Hr]. discriminate.
  - destruct (Hret eq_refl) as [r Hr]. rewrite Hr.
    split; split; try reflexivity; try discriminate.
    intros _. now exists r.
Qed.

Lemma older_push_throws (entries : properties value) :
  forall pushed,
    (existsb (fun kv => isObjectTag (typeof (snd kv)) && reachesNull (snd kv)) entries = true ->
     fold_left
       (fun Output entry =>
          match Output with
          | Thrown e => Thrown e
          | Returned pushed =>
              let value := snd entry in
              if isObjectTag (typeof value) then
                match OlderCopy.objectToTableCasing value with
                | Returned converted => Returned (pushed ++ [converted])%list
                | Thrown e => Thrown e
                end
              else Returned (pushed ++ [value])%list
          end) entries (Returned pushed) = Thrown "TypeError") /\
    (existsb (fun kv => isObjectTag (typeof (snd kv)) && reachesNull (snd kv)) entries = false ->
     exists result,
       fold_left
         (fun Output entry =>
            match Output with
            | Thrown e => Thrown e
            | Returned pushed =>
                let value := snd entry in
                if isObjectTag (typeof value) then
                  match OlderCopy.objectToTableCasing value with
                  | Returned converted => Returned (pushed ++ [converted])%list
                  | Thrown e => Thrown e
                  end
                else Returned (pushed ++ [value])%list
            end) entries (Returned pushed) = Returned result /\
       List.length result = List.length pushed + List.length entries).
Proof.
  induction entries as [|[key v] entries IH]; intros pushed.
  - split; [discriminate|]. intros _. exists pushed. split; [reflexivity | cbn; lia].
  - cbn [existsb fold_left snd].
    destruct (isObjectTag (typeof v)); cbn [andb orb].
    + destruct (older_walk_throws underscoreGetColumnName v) as [Hthrow Hret].
      unfold OlderCopy.objectToTableCasing in *.
      destruct (reachesNull v); cbn [orb].
      * rewrite (Hthrow eq_refl). split; [intros _|discriminate].
        clear. induction entries as [|entry entries IH]; [reflexivity | exact IH].
      * destruct (Hret eq_refl) as [r ->].
        destruct (IH (pushed ++ [r])%list) as [IHthrow IHret]. split; [exact IHthrow|].
        intros H. destruct (IHret H) as [result [Hres Hlen]].
        exists result. split; [exact Hres|]. rewrite Hlen, length_app. cbn. lia.
    + destruct (IH (pushed ++ [v])%list) as [IHthrow IHret]. split; [exact IHthrow|].
      intros H. destruct (IHret H) as [result [Hres Hlen]].
      exists result. split; [exact Hres|]. rewrite Hlen, length_app. cbn. lia.
Qed.

(** X16.  When the older [objectToArray] throws.  It ends with a [TypeError]
    exactly when its argument is [undefined] or [null], or one of the values
    it hands to [objectToTableCasing] (those whose [typeof] is ["object"],
    [null] among them) makes that call throw; otherwise it returns one
    element for each entry.  (The current copy returns the empty array for
    [null], and [null] for a value that is [null].) *)
Theorem older_objectToArray_TypeError (obj : value) :
  (arrayReachesNull obj = true -> OlderCopy.objectToArray obj = Thrown "TypeError") /\
  (arrayReachesNull obj = false ->
   exists result entries,
     OlderCopy.objectToArray obj = Returned result /\
     entriesOf obj = Returned entries /\
     List.length result = List.length entries).
Proof.
  unfold arrayReachesNull, OlderCopy.objectToArray, OlderCopy.objectToArrayWith.
  destruct (entriesOf obj) as [entries|e] eqn:Hentries.
  - destruct (older_push_throws entries []) as [Hthrow Hret]. split; [exact Hthrow|].
    intros H. destruct (Hret H) as [result [Hres Hlen]].
    exists result, entries. repeat split; assumption.
  - split; [|discriminate]. intros _.
    destruct obj; try discriminate; injection Hentries as <-; reflexivity.
Qed.

Lemma older_objectToArray_TypeError_witness :
  OlderCopy.objectToArray (VObject [("id", VNumber 1); ("deletedAt", VNull)])
  = Thrown "TypeError".
Proof.
  exact (proj1 (older_objectToArray_TypeError
                  (VObject [("id", VNumber 1); ("deletedAt", VNull)])) eq_refl).
Defined.

(** ** More on names and documents *)

(** X17.  Two property names of one casing never share a column.  For names
    made of letters that both start with a lowercase letter, or both with a
    capital, different names have different column names.  (["userId"] and
    ["UserId"], of different casings, share ["user_id"].) *)
Theorem getColumnName_injective (pascal : bool) (x y : string) :
  allChars isLetter x = true ->
  allChars isLetter y = true ->
  startsWith (if pascal then isUpperAZ else isLowerAZ) x = true ->
  startsWith (if pascal then isUpperAZ else isLowerAZ) y = true ->
  String.eqb x y = false ->
  String.eqb (underscoreGetColumnName x) (underscoreGetColumnName y) = false.
Proof.
  intros Hx Hy Hfx Hfy Hdiff.
  apply not_true_iff_false. intros Heq. apply String.eqb_eq in Heq.
  apply (f_equal (capitalizeAfterUnderscore pascal)) in Heq.
  rewrite (underscore_round_trip pascal x Hx Hfx),
    (underscore_round_trip pascal y Hy Hfy) in Heq.
  subst y. rewrite String.eqb_refl in Hdiff. discriminate.
Qed.

Lemma getColumnName_injective_witness :
  String.eqb (underscoreGetColumnName "userID") (underscoreGetColumnName "userId") = false.
Proof.
  exact (getColumnName_injective false "userID" "userId"
           eq_refl eq_refl eq_refl eq_refl eq_refl).
Defined.

Lemma renameKeys_same (v : value) : renameKeys (fun key => key) v = v.
Proof.
  induction v as [ | | b | n | s | time | low high unsigned | elements IH | o IH]
    using value_induction; try reflexivity.
  - cbn [renameKeys]. f_equal. rewrite <- (map_id elements) at 2.
    now apply map_Forall_ext.
  - cbn [renameKeys]. f_equal. rewrite <- (map_id o) at 2.
    apply map_Forall_ext. eapply Forall_impl; [|exact IH].
    intros [k x] Hx. cbn [fst snd] in *. now rewrite Hx.
Qed.

(** X18.  The default strategy changes nothing.  On a document whose keys
    are plain and pairwise different in every object, with a [Date] or a
    [Long] only as the value of a property, both walkers of
    [DefaultTableMappings] return the document. *)
Theorem default_strategy_identity (v : value) :
  regular (fun key => key) false false v = true ->
  objectToTableCasing (mappings Default) v = v /\
  objectToFixedCasing (mappings Default) v = v.
Proof.
  intros Hreg. cbn [mappings objectToTableCasing objectToFixedCasing].
  unfold DefaultTableMappings.objectToTableCasing, DefaultTableMappings.objectToFixedCasing.
  split.
  - rewrite (proj2 (regular_walk DefaultTableMappings.getColumnName false v false Hreg) eq_refl).
    apply renameKeys_same.
  - rewrite (proj2 (regular_walk DefaultTableMappings.getPropertyName false v false Hreg) eq_refl).
    apply renameKeys_same.
Qed.

Lemma default_strategy_identity_witness :
  objectToTableCasing (mappings Default)
    (VObject [("user_id", VNumber 1); ("tags", VArray [VString "a"; VNull])])
  = VObject [("user_id", VNumber 1); ("tags", VArray [VString "a"; VNull])].
Proof.
  exact (proj1 (default_strategy_identity
                  (VObject [("user_id", VNumber 1); ("tags", VArray [VString "a"; VNull])])
                  eq_refl)).
Defined.

Section Idempotent.

Variable rename : string -> string.
Hypothesis rename_idempotent : forall key, rename (rename key) = rename key.

Lemma renamed_keys_again (o : properties value) :
  map (fun kv => rename (rename (fst kv))) o = map (fun kv => rename (fst kv)) o.
Proof.
  induction o as [|kv o IH]; [reflexivity|].
  cbn [map]. now rewrite rename_idempotent, IH.
Qed.

Lemma regular_again (flag : bool) (v : value) :
  forall leaf,
    regular rename flag leaf v = true ->
    regular rename flag leaf (renameKeys rename v) = true.
Proof.
  induction v as [ | | b | n | s | time | low high unsigned | elements IH | o IH]
    using value_induction; intros leaf Hreg; try exact Hreg.
  - cbn [regular renameKeys] in *. rewrite forallb_of_map. apply Forall_forallb.
    eapply Forall_impl; [|exact (Forall_forallb_and _ _ _ IH Hreg)].
    intros x [Hx Hr]. now apply Hx.
  - cbn [regular renameKeys] in *.
    apply andb_true_iff in Hreg as [Hreg Hvalues].
    rewrite !map_map. cbn [fst]. rewrite renamed_keys_again, Hreg. cbn [andb].
    rewrite forallb_of_map. cbn [snd]. apply Forall_forallb.
    eapply Forall_impl; [|exact (Forall_forallb_and _ _ _ IH Hvalues)].
    intros kv [Hx Hr]. now apply Hx.
Qed.

Lemma renameKeys_again (v : value) :
  renameKeys rename (renameKeys rename v) = renameKeys rename v.
Proof.
  induction v as [ | | b | n | s | time | low high unsigned | elements IH | o IH]
    using value_induction; try reflexivity.
  - cbn [renameKeys]. f_equal. rewrite map_map. now apply map_Forall_ext.
  - cbn [renameKeys]. f_equal. rewrite map_map. cbn [fst snd].
    apply map_Forall_ext. eapply Forall_impl; [|exact IH].
    intros kv Hkv. cbn beta in Hkv. now rewrite rename_idempotent, Hkv.
Qed.

End Idempotent.

(** X19.  Converting a row again changes nothing.  On a document whose
    column names are plain and pairwise different in every object, with a
    [Date] or a [Long] only as the value of a property (and no [Long] when
    [objectToTableCasing] converts them), [objectToTableCasing] of the result
    of [objectToTableCasing] is that result, in every strategy. *)
Theorem objectToTableCasing_idempotent (s : Strategy) (v : value) :
  regular (getColumnName (mappings s)) (tableFlag s) false v = true ->
  objectToTableCasing (mappings s) (objectToTableCasing (mappings s) v)
  = objectToTableCasing (mappings s) v.
Proof.
  intros Hreg. destruct (strategy_bodies s) as [-> _].
  assert (Hidem : forall key,
            getColumnName (mappings s) (getColumnName (mappings s) key)
            = getColumnName (mappings s) key)
    by (intros key; destruct s; [reflexivity | apply underscoreGetColumnName_again
                                 | apply underscoreGetColumnName_again]).
  rewrite (proj2 (regular_walk _ _ v false Hreg) eq_refl).
  rewrite (proj2 (regular_walk _ _ _ false (regular_again _ Hidem _ v false Hreg)) eq_refl).
  now apply renameKeys_again.
Qed.

Lemma objectToTableCasing_idempotent_witness :
  let document := VObject [("userId", VNumber 1); ("select", VArray [VObject [("zipCode", VNull)]])] in
  objectToTableCasing (mappings (CamelCase false))
    (objectToTableCasing (mappings (CamelCase false)) document)
  = objectToTableCasing (mappings (CamelCase false)) document.
Proof.
  exact (objectToTableCasing_idempotent (CamelCase false)
           (VObject [("userId", VNumber 1); ("select", VArray [VObject [("zipCode", VNull)]])])
           eq_refl).
Defined.

(** A document without cycles, held by reference, in which one [Date] is
    the value of two properties. *)
Lemma store_walk_is_tree_walk_witness :
  exists r st',
    Aliased.objectToTableCasing (CamelCase false) 3 (Aliased.HObject 0)
      [Aliased.OPlain [("createdAt", Aliased.HObject 1); ("again", Aliased.HObject 1)];
       Aliased.ODate 9]
    = Aliased.Normal r st' /\
    Aliased.readBack 2 st' r
    = Some (objectToTableCasing (mappings (CamelCase false))
              (VObject [("createdAt", VDate 9); ("again", VDate 9)])).
Proof.
  exact (Agreement.store_walk_is_tree_walk (CamelCase false) 2 3
           [Aliased.OPlain [("createdAt", Aliased.HObject 1); ("again", Aliased.HObject 1)];
            Aliased.ODate 9]
           (Aliased.HObject 0)
           (VObject [("createdAt", VDate 9); ("again", VDate 9)])
           eq_refl (le_n 3)).
Defined.
